(** * AsyncAF: [mapAF] and [forEachAF] over collections of deferred values

    A shallow embedding of [lib/methods/arrays/mapAF.js], which holds both
    [mapAF] and [forEachAF], together with the parts of the engine the two
    operations call.  The operations themselves, with the serial reduce
    they spell out, are embedded from their source.  The helpers they
    import ([permissiveIsArrayLike], [promiseAllWithHoles], [parallel],
    [serial]) and the wrapper class are not among the sources at hand; each
    of them is modelled from the specification and says so.

    JavaScript promises are embedded with a logical clock: a deferred value
    carries the instant at which it settles and the way it settles, and
    awaiting it at instant [now] finishes at the later of the two instants.
    Every run additionally produces a chronological trace of what happened
    to each slot (element settled, callable invoked, callable result
    settled); the trace is ghost state, it is what the ordering and
    counting statements are about. *)

From stdpp Require Import base list strings pretty sorting gmap.
From Stdlib Require Import ZArith Lia.

Local Open Scope string_scope.
Local Open Scope nat_scope.
#[local] Set Warnings "-register-all".

(** ** JavaScript values *)

(** Numbers are the integral ones plus [NaN]; records are lists of own
    properties with string keys (first binding wins); functions are not
    data here (see [callback] for the one place where they occur), and
    symbols are outside this universe.  A hole of a sparse array is [None],
    a present slot is [Some v]. *)
Inductive value : Type :=
| VUndefined
| VNull
| VBool (b : bool)
| VNum (n : Z)
| VNaN
| VStr (s : string)
| VArr (slots : list (option value))
| VRec (props : list (string * value))
| VError (name message : string)
| VPromise (settles_at : nat) (o : outcome)
with outcome : Type :=
| Fulfilled (v : value)
| Rejected (e : value).

(** A collection view: ordered slots, each ABSENT or PRESENT. *)
Abbreviation view := (list (option value)).

Definition TypeError (message : string) : value := VError "TypeError" message.

Definition is_promise (v : value) : bool :=
  match v with VPromise _ _ => true | _ => false end.

(** The default string coercion, as a template literal applies it: a
    number by its digits, an array by its elements joined with commas, an
    error by [Error.prototype.toString], any other object by its tag.  It
    is the coercion of JavaScript on the values that are [printable]
    below. *)
Fixpoint toString (v : value) : string :=
  match v with
  | VUndefined => "undefined"
  | VNull => "null"
  | VBool true => "true"
  | VBool false => "false"
  | VNum n => pretty n
  | VNaN => "NaN"
  | VStr s => s
  | VArr slots =>
      (fix join (l : view) : string :=
         match l with
         | [] => ""
         | s :: rest =>
             let here :=
               match s with
               | None | Some VUndefined | Some VNull => ""
               | Some x => toString x
               end in
             match rest with
             | [] => here
             | _ :: _ => here ++ "," ++ join rest
             end
         end) slots
  | VRec _ => "[object Object]"
  | VError name message =>
      if String.eqb name "" then message
      else if String.eqb message "" then name
      else name ++ ": " ++ message
  | VPromise _ _ => "[object Promise]"
  end.

(** Own-property lookup on a record. *)
Fixpoint get_prop (key : string) (props : list (string * value)) : option value :=
  match props with
  | [] => None
  | (k, v) :: rest => if String.eqb k key then Some v else get_prop key rest
  end.

(** The integers a JavaScript number holds exactly and prints digit by
    digit.  Beyond them a number is in general not the integer it is written
    as, and from [1e21] on it is printed with an exponent. *)
Definition safe_integer (n : Z) : bool := bool_decide (Z.abs n < 2 ^ 53)%Z.

(** The values whose string coercion is the default one, which [toString]
    computes: the numbers the coercion prints are safe integers, and no
    record it prints carries a [toString] property of its own (a property
    that is no function, as all properties are here, makes the coercion
    throw instead). *)
Fixpoint printable (v : value) : bool :=
  match v with
  | VNum n => safe_integer n
  | VArr slots =>
      (fix all (l : view) : bool :=
         match l with
         | [] => true
         | None :: rest => all rest
         | Some x :: rest => printable x && all rest
         end) slots
  | VRec props =>
      match get_prop "toString" props with
      | None => true
      | Some _ => false
      end
  | _ => true
  end.

(** [x >>> 0] *)
Definition to_uint32 (z : Z) : Z := (z mod 2 ^ 32)%Z.

(** [Array(n)]: [n] holes. *)
Definition Array (n : nat) : view := replicate n None.

(** [a[i] = v] on an array: in range it overwrites the slot, past the end
    it pads with holes and appends. *)
Definition array_set (i : nat) (v : value) (a : view) : view :=
  if decide (i < length a) then <[i := Some v]> a
  else a ++ replicate (i - length a) None ++ [Some v].

(** ** Awaiting a deferred value *)

(** A promise fulfilled with a promise follows it, a rejection reason is
    kept as it is. *)
Fixpoint delay_of (v : value) : nat :=
  match v with
  | VPromise t (Fulfilled v') => t `max` delay_of v'
  | VPromise t (Rejected _) => t
  | _ => 0
  end.

Fixpoint final_of (v : value) : outcome :=
  match v with
  | VPromise _ (Fulfilled v') => final_of v'
  | VPromise _ (Rejected e) => Rejected e
  | _ => Fulfilled v
  end.

(** How a computation ends: with a result or with a rejection reason. *)
Inductive settled (A : Type) : Type :=
| Ok (a : A)
| Fail (e : value).
Arguments Ok {A} a.
Arguments Fail {A} e.

Definition settled_of (o : outcome) : settled value :=
  match o with Fulfilled v => Ok v | Rejected e => Fail e end.

Definition await (now : nat) (x : value) : nat * settled value :=
  (now `max` delay_of x, settled_of (final_of x)).

(** [Promise.resolve(x)] called at instant [now]. *)
Definition Promise_resolve (now : nat) (x : value) : value :=
  if is_promise x then x else VPromise now (Fulfilled x).

(** What a call does synchronously: return a value or throw. *)
Inductive completion (A : Type) : Type :=
| Return (a : A)
| Throw (e : value).
Arguments Return {A} a.
Arguments Throw {A} e.

(** ** Shape Classifier and Collection Normalizer *)

(** Modelled from the spec: [_internal/permissiveIsArrayLike] is not among
    the sources.  Section 4.1: true iff the value is an indexed sequence, a
    text sequence, or a record exposing a finite non-negative 32-bit-range
    [length]; false for null, absent and other non-indexable values. *)
Definition permissiveIsArrayLike (v : value) : bool :=
  match v with
  | VArr _ => true
  | VStr _ => true
  | VRec props =>
      match get_prop "length" props with
      | Some (VNum n) => bool_decide (0 <= n < 2 ^ 32)%Z
      | _ => false
      end
  | _ => false
  end.

(** Modelled from the spec: the normalisation the resolvers of
    [_internal/resolve] apply to their argument is not among the sources.
    Section 4.2: an indexed sequence keeps its own gaps as ABSENT, an
    array-like record is fully dense (every index PRESENT even without an
    own entry), a text sequence is dense with one slot per character. *)
Definition normalise (v : value) : view :=
  match v with
  | VArr slots => slots
  | VStr s => (λ c, Some (VStr (String c ""))) <$> String.list_ascii_of_string s
  | VRec props =>
      match get_prop "length" props with
      | Some (VNum n) =>
          (λ i : nat, Some (default VUndefined (get_prop (pretty i) props)))
            <$> seq 0 (Z.to_nat n)
      | _ => []
      end
  | _ => []
  end.

(** ** Traces and tasks *)

(** What can happen to slot [i] during one operation. *)
Inductive event : Type :=
| ElementSettled (i : nat)
| Invoked (i : nat) (thisArg el arr : value)
| ResultSettled (i : nat).

Definition slot_of (e : event) : nat :=
  match e with
  | ElementSettled i | Invoked i _ _ _ | ResultSettled i => i
  end.

(** Events with the instant at which they happen. *)
Abbreviation log := (list (nat * event)).

(** A promise-returning computation that has been run: when it settles, how
    it settles, and what happened on the way. *)
Record task (A : Type) : Type := Task {
  settles : nat;
  result : settled A;
  trace : log
}.
Arguments Task {A} _ _ _.
Arguments settles {A} _.
Arguments result {A} _.
Arguments trace {A} _.

(** [p.then(k)] with a fulfilment handler only: a rejection of [p] is
    forwarded and [k] is not run. *)
Definition then_ {A B : Type} (p : task A) (k : nat → A → task B) : task B :=
  match result p with
  | Ok a =>
      let q := k (settles p) a in
      Task (settles q) (result q) (trace p ++ trace q)
  | Fail e => Task (settles p) (Fail e) (trace p)
  end.

(** A caller-supplied function: it sees the clock, its [this], the element,
    the index and the collection, and returns or throws. *)
Definition callable : Type :=
  nat → value → value → nat → value → completion value.

(** The [callback] argument of an operation: a function, or any other
    value. *)
Inductive callback : Type :=
| Fn (f : callable)
| NotFn (v : value).

(** When and how the value a call produced settles. *)
Definition settle_call (now : nat) (c : completion value) : nat * settled value :=
  match c with
  | Return r => await now r
  | Throw e => (now, Fail e)
  end.

(** Trace entries in chronological order; entries of one instant keep the
    order in which they were produced. *)
Fixpoint insert_by_time (x : nat * event) (l : log) : log :=
  match l with
  | [] => [x]
  | y :: rest =>
      if decide (x.1 ≤ y.1)%nat then x :: y :: rest
      else y :: insert_by_time x rest
  end.

Definition chronological (l : log) : log :=
  foldr (λ x acc, insert_by_time x acc) [] l.

(** ** Hole-Aware Combinator *)

(** Modelled from the spec: the merge of [_internal/promiseAllWithHoles],
    which is not among the sources.  Section 4.3 and 7: a hole stays a
    hole; when a slot failed, the first failure is the outcome (among
    failures of one instant the lowest index is served first); otherwise
    the outcome is ready once the last slot is. *)
Fixpoint combine_slots (now : nat) (l : list (option (nat * settled value)))
  : nat * settled view :=
  match l with
  | [] => (now, Ok [])
  | None :: rest =>
      match combine_slots now rest with
      | (t, Ok vs) => (t, Ok (None :: vs))
      | (t, Fail e) => (t, Fail e)
      end
  | Some (t1, Ok v) :: rest =>
      match combine_slots now rest with
      | (t, Ok vs) => (t1 `max` t, Ok (Some v :: vs))
      | (t, Fail e) => (t, Fail e)
      end
  | Some (t1, Fail e1) :: rest =>
      match combine_slots now rest with
      | (t, Ok _) => (t1, Fail e1)
      | (t, Fail e) => if decide (t1 ≤ t)%nat then (t1, Fail e1) else (t, Fail e)
      end
  end.

(** Modelled from the spec: [_internal/promiseAllWithHoles] is not among the
    sources.  Section 4.3: waits for every PRESENT slot's deferred value to
    settle, concurrently and independently; the output view preserves ABSENT
    slots as holes and the index-to-value mapping; it fails as soon as any
    one PRESENT slot fails. *)
Definition promiseAllWithHoles (now : nat) (promises : view) : nat * settled view :=
  combine_slots now ((λ s : option value, await now <$> s) <$> promises).

(** ** Resolvers *)

(** The two trace entries of one call of the callable. *)
Definition call_trace (now : nat) (thisArg el : value) (i : nat) (arr : value)
    (c : completion value) : log :=
  [(now, Invoked i thisArg el arr); ((settle_call now c).1, ResultSettled i)].

(** Modelled from the spec: the call for one PRESENT slot of [parallel],
    which is not among the sources.  Section 4.4: the callable is invoked
    on the resolved element, bound to the invocation context, and what it
    returned is resolved. *)
Definition parallel_slot (now : nat) (f : callable) (thisArg arr : value)
    (i : nat) (el : value) : task value :=
  let c := f now thisArg el i arr in
  Task (settle_call now c).1 (settle_call now c).2
       (call_trace now thisArg el i arr c).

(** Modelled from the spec: the calls of [parallel], one for each PRESENT
    slot and all from the same instant, holes skipped. *)
Fixpoint parallel_from (now : nat) (f : callable) (thisArg arr : value)
    (k : nat) (slots : view) : list (option (task value)) :=
  match slots with
  | [] => []
  | None :: rest => None :: parallel_from now f thisArg arr (S k) rest
  | Some x :: rest =>
      Some (parallel_slot now f thisArg arr k x)
        :: parallel_from now f thisArg arr (S k) rest
  end.

(** What happened in the slots of a parallel run, slot after slot. *)
Fixpoint slot_traces (runs : list (option (task value))) : log :=
  match runs with
  | [] => []
  | None :: rest => slot_traces rest
  | Some p :: rest => trace p ++ slot_traces rest
  end.

(** When the element of each PRESENT slot settles, all of them awaited
    from [now]. *)
Fixpoint element_events (now k : nat) (slots : view) : log :=
  match slots with
  | [] => []
  | None :: rest => element_events now (S k) rest
  | Some x :: rest =>
      ((await now x).1, ElementSettled k) :: element_events now (S k) rest
  end.

(** Modelled from the spec: [parallel] of [_internal/resolve] is not among
    the sources.  Section 4.4: the elements of the PRESENT slots are
    resolved concurrently; for every PRESENT slot the callable is invoked
    with the resolved element, the index and the view, bound to the
    invocation context, and what it returned is resolved; ABSENT slots are
    skipped; final assembly via the Combinator; fails with a type error,
    before resolution starts, if the callable is not invocable.  Section 2:
    it resolves all PRESENT elements concurrently, invokes the callable per
    element, assembles via the Combinator.  The view handed to the callable
    is the one in which the elements have been resolved, as in the serial
    branch of [mapAF], which is among the sources: section 8 has the two
    modes yield identical collections for every pure callable.  The
    callable is therefore invoked once every element has been resolved,
    and not at all when an element fails. *)
Definition parallel (now : nat) (arr : value) (mapper : callback) (thisArg : value)
  : task view :=
  match mapper with
  | NotFn v => Task now (Fail (TypeError (toString v ++ " is not a function"))) []
  | Fn f =>
      let original := normalise arr in
      let elements := promiseAllWithHoles now original in
      then_ (Task elements.1 elements.2
                  (chronological (element_events now 0 original)))
        (λ now resolved,
           let runs := parallel_from now f thisArg (VArr resolved) 0 resolved in
           let all :=
             combine_slots now
               ((λ s : option (task value), (λ p, (settles p, result p)) <$> s)
                  <$> runs) in
           Task all.1 all.2 (chronological (slot_traces runs)))
  end.

(** Modelled from the spec: the loop of [serial], which is not among the
    sources.  Section 4.5: the element of slot [k] is awaited, and only
    when it has settled is the next slot looked at; a hole stays a hole; a
    failure ends the loop. *)
Fixpoint resolveSerially (now k : nat) (slots : view) : task view :=
  match slots with
  | [] => Task now (Ok []) []
  | None :: rest =>
      let q := resolveSerially now (S k) rest in
      Task (settles q)
           (match result q with Ok vs => Ok (None :: vs) | Fail e => Fail e end)
           (trace q)
  | Some x :: rest =>
      let t := (await now x).1 in
      match (await now x).2 with
      | Fail e => Task t (Fail e) [(t, ElementSettled k)]
      | Ok el =>
          let q := resolveSerially t (S k) rest in
          Task (settles q)
               (match result q with Ok vs => Ok (Some el :: vs) | Fail e => Fail e end)
               ((t, ElementSettled k) :: trace q)
      end
  end.

(** Modelled from the spec: [serial] of [_internal/resolve] is not among the
    sources; [mapAF] and [forEachAF] call it with the collection alone and
    use what it fulfils with as an array.  Section 4.5 for that part:
    PRESENT slots are resolved strictly ascending, one element fully
    resolved before the next begins; ABSENT slots are skipped and stay
    holes; the first failure ends the resolution. *)
Definition serial (now : nat) (arr : value) : task view :=
  resolveSerially now 0 (normalise arr).

(** [Array.prototype.reduce] with an initial value: the reducer is applied
    to the present slots in ascending index order and receives the
    accumulator, the element, the index and the array itself; holes are
    skipped. *)
Fixpoint reduce_from {A : Type} (f : A → value → nat → view → A)
    (whole : view) (k : nat) (slots : view) (acc : A) : A :=
  match slots with
  | [] => acc
  | None :: rest => reduce_from f whole (S k) rest acc
  | Some el :: rest => reduce_from f whole (S k) rest (f acc el k whole)
  end.

Definition reduce {A : Type} (f : A → value → nat → view → A) (init : A)
    (arr : view) : A :=
  reduce_from f arr 0 arr init.

(** ** Pipeline Wrapper *)

(** Modelled from the spec: the wrapper class ([classes/AsyncAfWrapper]) is
    not among the sources.  Section 3: a pipeline stage owns a deferred
    value and a resolution mode, [inSeries] in [mapAF.js]. *)
Record AsyncAfWrapper : Type := Wrapper {
  data : value;
  inSeries : bool
}.

(** What a chaining call hands back: the new stage, and (ghost) the trace
    of the operation that will settle it. *)
Record chained : Type := Chained {
  stage : AsyncAfWrapper;
  happened : log
}.

Definition outcome_of (r : settled value) : outcome :=
  match r with Ok v => Fulfilled v | Fail e => Rejected e end.

(** Modelled from the spec: the constructor ([classes/AsyncAfWrapper] and
    [_internal/createNewlessClass]) is not among the sources.  Section 4.6:
    construction accepts any value, with no validation at construction
    time; the mode is PARALLEL until it is switched. *)
Definition AsyncAF (v : value) : completion AsyncAfWrapper :=
  Return (Wrapper v false).

(** Modelled from the spec: the mode switch of the wrapper is not among the
    sources.  Section 4.6: an equivalent pipeline with the mode forced. *)
Definition series (w : AsyncAfWrapper) : AsyncAfWrapper := Wrapper (data w) true.

(** Modelled from the spec: the wrapper's [then] ([classes/AsyncAfWrapper])
    is not among the sources.  Sections 3, 4.6 and 7: the new stage depends
    on the settled value of its predecessor and inherits its mode; what the
    handler throws surfaces as a rejection of the new stage's deferred
    value, never as an exception of the chaining call; a rejected
    predecessor is forwarded without running the handler. *)
Definition wrapper_then (this : AsyncAfWrapper)
    (onFulfilled : nat → value → completion (task value)) : completion chained :=
  let t := (await 0 (data this)).1 in
  match (await 0 (data this)).2 with
  | Fail e => Return (Chained (Wrapper (VPromise t (Rejected e)) (inSeries this)) [])
  | Ok v =>
      match onFulfilled t v with
      | Throw e =>
          Return (Chained (Wrapper (VPromise t (Rejected e)) (inSeries this)) [])
      | Return q =>
          Return (Chained
                    (Wrapper (VPromise (settles q) (outcome_of (result q)))
                             (inSeries this))
                    (trace q))
      end
  end.

(** A task that fulfils with an array, seen as a task that fulfils with a
    value. *)
Definition as_array (p : task view) : task value :=
  Task (settles p)
       (match result p with Ok vs => Ok (VArr vs) | Fail e => Fail e end)
       (trace p).

(** ** The operations of [mapAF.js] *)

Definition mapAF (this : AsyncAfWrapper) (callback : callback) (thisArg : value)
  : completion chained :=
  wrapper_then this (λ now arr,
    if negb (permissiveIsArrayLike arr) then
      Throw (TypeError ("mapAF cannot be called on " ++ toString arr
                          ++ ", only on an Array or array-like Object"))
    else
      match callback with
      | NotFn v => Throw (TypeError (toString v ++ " is not a function"))
      | Fn f =>
          Return (as_array
            (if inSeries this then
               then_ (serial now arr) (λ now arr,
                 reduce (λ map el i arr, then_ map (λ now map,
                     match f now thisArg el i (VArr arr) with
                     | Throw e as c =>
                         Task now (Fail e) (call_trace now thisArg el i (VArr arr) c)
                     | Return r as c =>
                         let map := array_set i (Promise_resolve now r) map in
                         let all := promiseAllWithHoles now map in
                         Task all.1 all.2 (call_trace now thisArg el i (VArr arr) c)
                     end))
                   (Task now (Ok (Array (Z.to_nat (to_uint32 (Z.of_nat (length arr)))))) [])
                   arr)
             else parallel now arr callback thisArg))
      end).

Definition forEachAF (this : AsyncAfWrapper) (callback : callback) (thisArg : value)
  : completion chained :=
  wrapper_then this (λ now arr,
    if negb (permissiveIsArrayLike arr) then
      Throw (TypeError ("forEachAF cannot be called on " ++ toString arr
                          ++ ", only on an Array or array-like Object"))
    else
      match callback with
      | NotFn v => Throw (TypeError (toString v ++ " is not a function"))
      | Fn f =>
          Return (then_
            (if inSeries this then
               then_ (serial now arr) (λ now arr,
                 reduce (λ expr el i arr, then_ expr (λ now _,
                     let c := f now thisArg el i (VArr arr) in
                     Task (settle_call now c).1 (settle_call now c).2
                          (call_trace now thisArg el i (VArr arr) c)))
                   (Task now (Ok VUndefined) [])
                   arr)
             else as_array (parallel now arr callback thisArg))
            (λ now _, Task now (Ok VUndefined) []))
      end).

(** ** Vocabulary of the statements *)

Local Open Scope list_scope.

(** The settled value of a stage, as its accessor exposes it. *)
Definition settled_value (w : AsyncAfWrapper) : settled value :=
  (await 0 (data w)).2.

(** Where the holes of a view are. *)
Definition is_hole {A : Type} (s : option A) : bool :=
  match s with None => true | Some _ => false end.

Definition hole_pattern (v : view) : list bool := is_hole <$> v.

(** The PRESENT slots of a view, with their indices, ascending. *)
Fixpoint present_from (k : nat) (slots : view) : list (nat * value) :=
  match slots with
  | [] => []
  | None :: rest => present_from (S k) rest
  | Some x :: rest => (k, x) :: present_from (S k) rest
  end.

Definition present (slots : view) : list (nat * value) := present_from 0 slots.

(** The indices for which the callable was invoked, in trace order. *)
Definition invoked_index (e : event) : option nat :=
  match e with Invoked i _ _ _ => Some i | _ => None end.

Definition invocations (l : log) : list nat := omap invoked_index l.*2.

(** When the result of a call settled, and for which slot, in trace order. *)
Definition completions (l : log) : list (nat * nat) :=
  omap (λ e : nat * event,
          match e.2 with ResultSettled i => Some (e.1, i) | _ => None end) l.

(** How the value produced by a call settles, whenever it is awaited. *)
Definition call_outcome (c : completion value) : settled value :=
  match c with
  | Return r => settled_of (final_of r)
  | Throw e => Fail e
  end.

(** [rs] is [slots] with every PRESENT element resolved. *)
Definition resolves_to (slots rs : view) : Prop :=
  Forall2 (λ s r : option value,
             match s, r with
             | None, None => True
             | Some x, Some el => final_of x = Fulfilled el
             | _, _ => False
             end) slots rs.

(** A view whose PRESENT slots hold no deferred value. *)
Definition concrete (slots : view) : Prop :=
  Forall (λ s : option value, ∀ v, s = Some v → is_promise v = false) slots.

(** A JavaScript array has fewer than [2 ^ 32] slots. *)
Definition array_sized (slots : view) : Prop :=
  (Z.of_nat (length slots) < 2 ^ 32)%Z.

(** The events of one call of the callable, without their instants. *)
Definition call_events (thisArg arr : value) (c : nat * value) : list event :=
  [Invoked c.1 thisArg c.2 arr; ResultSettled c.1].

(** ** The serial branches in direct style *)

(** The reduce chain of the serial branches in direct style: the step of
    each PRESENT slot runs when the one before it has fulfilled. *)
Fixpoint chain {A : Type} (step : value → nat → nat → A → task A)
    (k : nat) (slots : view) (now : nat) (a : A) : task A :=
  match slots with
  | [] => Task now (Ok a) []
  | None :: rest => chain step (S k) rest now a
  | Some el :: rest => then_ (step el k now a) (chain step (S k) rest)
  end.

(** The body of the serial [mapAF] handler for one slot. *)
Definition map_step (f : callable) (thisArg : value) (arr : view)
    (el : value) (i now : nat) (map : view) : task view :=
  match f now thisArg el i (VArr arr) with
  | Throw e as c => Task now (Fail e) (call_trace now thisArg el i (VArr arr) c)
  | Return r as c =>
      let map := array_set i (Promise_resolve now r) map in
      let all := promiseAllWithHoles now map in
      Task all.1 all.2 (call_trace now thisArg el i (VArr arr) c)
  end.

(** The body of the serial [forEachAF] handler for one slot. *)
Definition each_step (f : callable) (thisArg : value) (arr : view)
    (el : value) (i now : nat) (_ : value) : task value :=
  let c := f now thisArg el i (VArr arr) in
  Task (settle_call now c).1 (settle_call now c).2
       (call_trace now thisArg el i (VArr arr) c).

(** ** Settled slots *)

(** The values of settled slots. *)
Definition slot_values (l : list (option (nat * settled value))) : view :=
  (λ s : option (nat * settled value),
     s ≫= λ p, match p.2 with Ok v => Some v | Fail _ => None end) <$> l.

Definition all_fulfilled (l : list (option (nat * settled value))) : Prop :=
  Forall (λ s : option (nat * settled value),
            ∀ p, s = Some p → ∃ v, p.2 = Ok v) l.

(** Slots that are ready at [now]. *)
Definition all_ready (now : nat) (l : list (option (nat * settled value))) : Prop :=
  Forall (λ s : option (nat * settled value),
            ∀ q, s = Some q → ∃ v, q = (now, Ok v)) l.

(** When and how each slot of a parallel run settles. *)
Definition settlements (runs : list (option (task value)))
  : list (option (nat * settled value)) :=
  (λ s : option (task value), (λ p, (settles p, result p)) <$> s) <$> runs.

(** ** Runs of the operations *)

(** The stage and trace a chaining call hands back for a task. *)
Definition chained_of (mode : bool) (q : task value) : chained :=
  Chained (Wrapper (VPromise (settles q) (outcome_of (result q))) mode) (trace q).

(** The serial branch of [mapAF] with its reduce as a chain. *)
Definition serial_map (f : callable) (thisArg : value) (now : nat) (arr : value)
  : task view :=
  then_ (serial now arr) (λ now rs,
    chain (map_step f thisArg rs) 0 rs now
          (Array (Z.to_nat (to_uint32 (Z.of_nat (length rs)))))).

(** The serial branch of [forEachAF] with its reduce as a chain. *)
Definition serial_each (f : callable) (thisArg : value) (now : nat) (arr : value)
  : task value :=
  then_ (serial now arr) (λ now rs,
    chain (each_step f thisArg rs) 0 rs now VUndefined).

(** The calls of one run of [parallel] on the resolved view. *)
Definition parallel_runs (f : callable) (thisArg : value) (now : nat) (rs : view)
  : list (option (task value)) :=
  parallel_from now f thisArg (VArr rs) 0 rs.

(** ** Properties of traces, callables and views *)

(** Every event of a slot comes before every event of a later slot: the
    whole step of a slot is over before any part of the next one begins. *)
Definition step_after_step (l : log) : Prop :=
  ∀ p q e1 e2,
    l.*2 !! p = Some e1 → l.*2 !! q = Some e2 → slot_of e1 < slot_of e2 → p < q.

(** A trace whose instants never decrease. *)
Definition in_time_order (l : log) : Prop := StronglySorted le l.*1.

(** A task that starts at [now]: nothing in its trace happens before [now]
    or after it has settled, and its trace is in time order. *)
Definition runs_from {A : Type} (now : nat) (q : task A) : Prop :=
  now ≤ settles q
  ∧ Forall (λ t, now ≤ t ≤ settles q) (trace q).*1
  ∧ in_time_order (trace q).

(** A callable whose result is determined by its arguments. *)
Definition pure (f : callable) : Prop :=
  ∀ t t' thisArg el i arr, f t thisArg el i arr = f t' thisArg el i arr.


(** ** Inputs of the examples *)

(** The callable [n => n * 2]: a number is doubled; any other operand is
    taken to [NaN], the numeric coercion of non-numbers is not modelled. *)
Definition double : callable := λ _ _ el _ _,
  match el with
  | VNum n => Return (VNum (n * 2))
  | _ => Return VNaN
  end.

(** The sparse array [[, , 1, , 2, , ,]]. *)
Definition sparse : view := [None; None; Some (VNum 1); None; Some (VNum 2); None; None].

(** The callable [async n => { await delay(n * 100) }] of the tests: what
    it returns settles [n * 100] instants after the call. *)
Definition delayed : callable := λ now _ el _ _,
  match el with
  | VNum n => Return (VPromise (now + Z.to_nat n * 100) (Fulfilled VUndefined))
  | _ => Return (VPromise now (Fulfilled VUndefined))
  end.

(** The callable [(el, i, arr) => arr[i] instanceof Promise]. *)
Definition sees_promise : callable := λ _ _ _ i arr,
  match arr with
  | VArr slots =>
      match slots !! i with
      | Some (Some (VPromise _ _)) => Return (VBool true)
      | _ => Return (VBool false)
      end
  | _ => Return (VBool false)
  end.

(** The callable [(n, i, arr) => n + (arr[i - 1] || 0)]: the slot before
    [i], or [0] when it is missing or falsy, is added to [n]; the sum is
    modelled on numbers, any other pair of operands is taken to [NaN]. *)
Definition add_previous : callable := λ _ _ n i arr,
  let previous :=
    match arr, i with
    | VArr slots, S j =>
        match slots !! j with Some (Some v) => v | _ => VUndefined end
    | _, _ => VUndefined
    end in
  let previous_or_0 :=
    match previous with
    | VUndefined | VNull | VNaN | VBool false | VNum 0 | VStr "" => VNum 0
    | v => v
    end in
  match n, previous_or_0 with
  | VNum a, VNum b => Return (VNum (a + b))
  | _, _ => Return VNaN
  end.

(** ** Method registration ([classes/AsyncAF.js]) *)

(** A function object with its [name] property. *)
Record method (B : Type) : Type := Method {
  method_name : string;
  body : B
}.
Arguments Method {B} _ _.
Arguments method_name {B} _.
Arguments body {B} _.

(** The property descriptor [{value: method}]. *)
Record descriptor (B : Type) : Type := Descriptor {
  descriptor_value : method B
}.
Arguments Descriptor {B} _.
Arguments descriptor_value {B} _.

(** [String.prototype.split] with a non-empty separator: the pieces of [s]
    between the occurrences of [sep], found from left to right; [skip]
    counts the characters of a found occurrence that are still to be
    passed over. *)
Fixpoint split_go (sep : string) (skip : nat) (s : string) : list string :=
  match s with
  | EmptyString => [EmptyString]
  | String c s' =>
      match skip with
      | S k => split_go sep k s'
      | 0 =>
          if String.prefix sep s then
            EmptyString :: split_go sep (String.length sep - 1) s'
          else
            match split_go sep 0 s' with
            | piece :: pieces => String c piece :: pieces
            | [] => [String c EmptyString]
            end
      end
  end.

Definition String_split (sep s : string) : list string := split_go sep 0 s.

(** [const [alias] = method.name.split`AF` || [method.name]]: an array is
    truthy, so the alternative is taken for no name; the first piece of an
    empty array would be [undefined]. *)
Definition alias_of (name : string) : string :=
  match String_split "AF" name with
  | alias :: _ => alias
  | [] => "undefined"
  end.

(** What [Object.assign] does to the own properties of its target for one
    property of a source: it stores it with an ordinary assignment.  On the
    key [__proto__] an assignment creates no property: it reaches the
    setter that every ordinary object inherits, which takes the assigned
    object as the new prototype of the target and leaves the own
    properties of the target as they were. *)
Definition assign {B : Type} (key : string) (d : descriptor B)
    (target : gmap string (descriptor B)) : gmap string (descriptor B) :=
  if decide (key = "__proto__") then target else <[key := d]> target.

(** [prepForDefine]: every method is entered under its name and then
    under its alias, method after method, into one object of property
    descriptors; the map holds the own properties of that object, which
    are what [Object.defineProperties] reads. *)
Definition prepForDefine {B : Type} (methods : list (method B))
  : gmap string (descriptor B) :=
  foldl (λ methods method,
           let alias := alias_of (method_name method) in
           assign alias (Descriptor method)
             (assign (method_name method) (Descriptor method) methods))
        ∅ methods.

(** Whether [method] is entered under [key]. *)
Definition entered_under {B : Type} (key : string) (m : method B) : Prop :=
  method_name m = key ∨ alias_of (method_name m) = key.

#[global] Instance entered_under_dec {B : Type} (key : string) (m : method B)
  : Decision (entered_under key m) :=
  or_dec (decide (method_name m = key)) (decide (alias_of (method_name m) = key)).

(** [sep] occurs in [s]. *)
Definition occurs_in (sep s : string) : Prop :=
  ∃ before after, s = (before ++ sep ++ after)%string.

(** ** Element-wise callables *)

(** The callable [el => F(el)], which looks at its first argument only. *)
Definition elementwise (F : value → value) : callable :=
  λ _ _ el _ _, Return (F el).

(** [F] applied to every PRESENT slot of a view. *)
Definition map_view (F : value → value) (slots : view) : view :=
  (λ s : option value, F <$> s) <$> slots.

(** What is left of a settled deferred value when the value it fulfilled
    with is discarded. *)
Definition discarded (d : value) : value :=
  match d with
  | VPromise t (Fulfilled _) => VPromise t (Fulfilled VUndefined)
  | _ => d
  end.

(** ** Deferred values *)

Lemma final_of_not_promise (v w : value) :
  final_of v = Fulfilled w → is_promise w = false.
Proof.
  revert v w.
  fix IH 1. intros v w.
  destruct v as [| | | | | | | | |t o]; simpl;
    try (intros [= <-]; reflexivity).
  destruct o as [v'|e]; [apply IH | discriminate].
Qed.

Lemma delay_of_concrete (v : value) : is_promise v = false → delay_of v = 0.
Proof. destruct v; simpl; congruence. Qed.

Lemma final_of_concrete (v : value) : is_promise v = false → final_of v = Fulfilled v.
Proof. destruct v; simpl; congruence. Qed.

Lemma await_concrete (now : nat) (v : value) :
  is_promise v = false → await now v = (now, Ok v).
Proof.
  intros H. unfold await.
  rewrite (delay_of_concrete v H), (final_of_concrete v H). simpl.
  f_equal. lia.
Qed.

Lemma await_Promise_resolve (now : nat) (r : value) :
  await now (Promise_resolve now r) = await now r.
Proof.
  unfold Promise_resolve. destruct (is_promise r) eqn:E; [reflexivity|].
  unfold await. simpl. rewrite (delay_of_concrete r E). f_equal. lia.
Qed.

Lemma await_outcome (now : nat) (x : value) :
  (await now x).2 = settled_of (final_of x).
Proof. reflexivity. Qed.

Lemma settle_call_outcome (now : nat) (c : completion value) :
  (settle_call now c).2 = call_outcome c.
Proof. destruct c; reflexivity. Qed.

Lemma settle_call_after (now : nat) (c : completion value) :
  now ≤ (settle_call now c).1.
Proof. destruct c; simpl; lia. Qed.

Lemma call_outcome_concrete (c : completion value) (w : value) :
  call_outcome c = Ok w → is_promise w = false.
Proof.
  destruct c as [r|e]; simpl; [|discriminate].
  destruct (final_of r) eqn:E; simpl; [|discriminate].
  intros [= <-]. eapply final_of_not_promise, E.
Qed.

(** ** Tasks and [reduce] *)

Lemma then_assoc {A B C : Type} (p : task A) (k1 : nat → A → task B)
    (k2 : nat → B → task C) :
  then_ (then_ p k1) k2 = then_ p (λ t a, then_ (k1 t a) k2).
Proof.
  unfold then_. destruct p as [t [a|e] lg]; simpl; [|reflexivity].
  destruct (k1 t a) as [t1 [b|e1] lg1]; simpl; [|reflexivity].
  by rewrite app_assoc.
Qed.

Lemma then_return {A : Type} (p : task A) :
  then_ p (λ t a, Task t (Ok a) []) = p.
Proof.
  unfold then_. destruct p as [t [a|e] lg]; simpl; [|reflexivity].
  by rewrite app_nil_r.
Qed.

Lemma then_ext {A B : Type} (p : task A) (k1 k2 : nat → A → task B) :
  (∀ t a, k1 t a = k2 t a) → then_ p k1 = then_ p k2.
Proof.
  intros H. unfold then_. destruct (result p); [|reflexivity]. by rewrite H.
Qed.

(** The reduce of the serial branches is the chain run after the
    accumulator. *)
Lemma reduce_chain {A : Type} (step : value → nat → view → nat → A → task A)
    (whole : view) (slots : view) (k : nat) (acc : task A) :
  reduce_from (λ acc el i arr, then_ acc (step el i arr)) whole k slots acc
  = then_ acc (chain (λ el i, step el i whole) k slots).
Proof.
  revert k acc. induction slots as [|[el|] rest IH]; intros k acc; simpl.
  - symmetry. apply then_return.
  - rewrite IH. apply then_assoc.
  - apply IH.
Qed.

(** ** Chronological order *)

Lemma insert_by_time_perm (x : nat * event) (l : log) :
  insert_by_time x l ≡ₚ x :: l.
Proof.
  induction l as [|y rest IH]; simpl; [done|].
  case_decide; [done|]. rewrite IH. apply Permutation_swap.
Qed.

Lemma chronological_perm (l : log) : chronological l ≡ₚ l.
Proof.
  induction l as [|x rest IH]; simpl; [done|].
  rewrite insert_by_time_perm. by rewrite IH.
Qed.

Lemma insert_by_time_sorted (x : nat * event) (l : log) :
  StronglySorted le l.*1 → StronglySorted le (insert_by_time x l).*1.
Proof.
  induction l as [|y rest IH]; simpl; intros Hl.
  - repeat constructor.
  - apply StronglySorted_cons in Hl as [Hy Hrest]. case_decide.
    + rewrite !fmap_cons. constructor; [by constructor|].
      constructor; [done|]. eapply Forall_impl; [exact Hy|]. simpl. lia.
    + rewrite fmap_cons. constructor; [by apply IH|].
      assert ((insert_by_time x rest).*1 ≡ₚ x.1 :: rest.*1) as ->
        by (by rewrite insert_by_time_perm).
      constructor; [lia|done].
Qed.

Lemma chronological_sorted (l : log) : StronglySorted le (chronological l).*1.
Proof.
  induction l as [|x rest IH]; simpl; [constructor|].
  by apply insert_by_time_sorted.
Qed.

Lemma elem_of_chronological (x : nat * event) (l : log) :
  x ∈ chronological l ↔ x ∈ l.
Proof. by rewrite chronological_perm. Qed.

Lemma invocations_chronological (l : log) :
  invocations (chronological l) ≡ₚ invocations l.
Proof. unfold invocations. by rewrite chronological_perm. Qed.

(** ** The Combinator *)

Lemma combine_slots_Ok (now : nat) (l : list (option (nat * settled value)))
    (t : nat) (vs : view) :
  combine_slots now l = (t, Ok vs) → all_fulfilled l ∧ vs = slot_values l.
Proof.
  revert t vs. induction l as [|[[t1 [v|e1]]|] rest IH]; intros t vs; simpl.
  - intros [= <- <-]. split; [constructor | reflexivity].
  - destruct (combine_slots now rest) as [t' [vs'|e']]; [|discriminate].
    intros [= <- <-]. destruct (IH _ _ eq_refl) as [Hall ->].
    split; [|reflexivity]. constructor; [|done].
    intros p [= <-]. eauto.
  - destruct (combine_slots now rest) as [t' [vs'|e']]; [discriminate|].
    case_decide; discriminate.
  - destruct (combine_slots now rest) as [t' [vs'|e']]; [|discriminate].
    intros [= <- <-]. destruct (IH _ _ eq_refl) as [Hall ->].
    split; [|reflexivity]. constructor; [|done]. discriminate.
Qed.

Lemma combine_slots_all_fulfilled (now : nat)
    (l : list (option (nat * settled value))) :
  all_fulfilled l → ∃ t, combine_slots now l = (t, Ok (slot_values l)).
Proof.
  induction 1 as [|s rest Hs _ IH]; simpl; [eauto|].
  destruct IH as [t ->]. destruct s as [[t1 r]|]; [|eauto].
  destruct (Hs _ eq_refl) as [v Hv]. simpl in Hv. subst r. eauto.
Qed.

Lemma combine_slots_Fail (now : nat) (l : list (option (nat * settled value)))
    (t : nat) (e : value) :
  combine_slots now l = (t, Fail e) → Some (t, Fail e) ∈ l.
Proof.
  revert t e. induction l as [|[[t1 [v|e1]]|] rest IH]; intros t e; simpl.
  - discriminate.
  - destruct (combine_slots now rest) as [t' [vs'|e']]; [discriminate|].
    intros [= <- <-]. right. by apply IH.
  - destruct (combine_slots now rest) as [t' [vs'|e']].
    + intros [= <- <-]. left.
    + case_decide; intros [= <- <-]; [left | right; by apply IH].
  - destruct (combine_slots now rest) as [t' [vs'|e']]; [discriminate|].
    intros [= <- <-]. right. by apply IH.
Qed.

Lemma combine_slots_ready (now : nat) (l : list (option (nat * settled value))) :
  all_ready now l → combine_slots now l = (now, Ok (slot_values l)).
Proof.
  induction 1 as [|[q|] l Hs _ IH]; simpl; [done| |by rewrite IH].
  destruct (Hs _ eq_refl) as [v ->]. rewrite IH. simpl. f_equal. lia.
Qed.

Lemma combine_slots_insert (now : nat) (l : list (option (nat * settled value)))
    (i tp : nat) (r : settled value) :
  all_ready now l → i < length l → now ≤ tp →
  combine_slots now (<[i := Some (tp, r)]> l)
  = (tp, match r with
         | Ok v => Ok (<[i := Some v]> (slot_values l))
         | Fail e => Fail e
         end).
Proof.
  intros Hl. revert i.
  induction Hl as [|s l Hs Hl IH]; intros i Hi Hle; simpl in Hi; [lia|].
  destruct i as [|i]; simpl.
  - rewrite (combine_slots_ready now l Hl).
    destruct r; [|reflexivity]. f_equal. lia.
  - rewrite IH by lia. destruct s as [q|].
    + destruct (Hs _ eq_refl) as [v ->]. destruct r; [|reflexivity].
      simpl. f_equal. lia.
    + destruct r; reflexivity.
Qed.

Lemma concrete_ready (now : nat) (m : view) :
  concrete m →
  all_ready now ((λ s : option value, await now <$> s) <$> m)
  ∧ slot_values ((λ s : option value, await now <$> s) <$> m) = m.
Proof.
  unfold slot_values.
  induction 1 as [|s m Hs _ [IH1 IH2]]; [split; [constructor | reflexivity]|].
  rewrite !fmap_cons, IH2. destruct s as [v|].
  - cbn [fmap option_fmap option_map]. rewrite (await_concrete now v) by eauto.
    split; [|reflexivity]. constructor; [|done]. intros q [= <-]. eauto.
  - split; [|reflexivity]. constructor; [discriminate | done].
Qed.

Lemma promiseAllWithHoles_concrete (now : nat) (m : view) :
  concrete m → promiseAllWithHoles now m = (now, Ok m).
Proof.
  intros Hm. destruct (concrete_ready now m Hm) as [H1 H2].
  unfold promiseAllWithHoles. by rewrite combine_slots_ready, H2.
Qed.

(** One freshly stored promise among resolved values: the combinator waits
    for it alone. *)
Lemma promiseAllWithHoles_insert (now : nat) (m : view) (i : nat) (p : value) :
  concrete m → i < length m →
  promiseAllWithHoles now (<[i := Some p]> m)
  = ((await now p).1,
     match (await now p).2 with
     | Ok v => Ok (<[i := Some v]> m)
     | Fail e => Fail e
     end).
Proof.
  intros Hm Hi. destruct (concrete_ready now m Hm) as [H1 H2].
  unfold promiseAllWithHoles. rewrite list_fmap_insert.
  change (await now <$> Some p) with (Some ((await now p).1, (await now p).2)).
  rewrite combine_slots_insert; [by rewrite H2 | done | by rewrite length_fmap |].
  unfold await. simpl. lia.
Qed.

Lemma concrete_insert (m : view) (i : nat) (v : value) :
  concrete m → is_promise v = false → concrete (<[i := Some v]> m).
Proof.
  intros Hm Hv. unfold concrete in *. rewrite Forall_lookup in Hm |- *.
  intros j s Hj. destruct (decide (i = j)) as [->|Hne].
  - destruct (decide (j < length m)) as [Hlt|Hge].
    + rewrite list_lookup_insert_eq in Hj by done. simplify_eq. by intros w [= <-].
    + rewrite list_insert_ge in Hj by lia. eauto.
  - rewrite list_lookup_insert_ne in Hj by done. eauto.
Qed.

Lemma concrete_Array (n : nat) : concrete (Array n).
Proof. unfold concrete, Array. apply Forall_replicate. discriminate. Qed.

(** ** Views and their resolution *)

Lemma resolves_to_concrete (slots rs : view) : resolves_to slots rs → concrete rs.
Proof.
  induction 1 as [|[x|] [el|] slots rs H _ IH]; try done; constructor; try done.
  intros v [= <-]. eapply final_of_not_promise, H.
Qed.

Lemma resolves_to_holes (slots rs : view) :
  resolves_to slots rs → hole_pattern rs = hole_pattern slots.
Proof.
  unfold hole_pattern.
  induction 1 as [|[x|] [el|] slots rs H _ IH]; try done;
    rewrite !fmap_cons; by f_equal.
Qed.

Lemma resolves_to_length (slots rs : view) :
  resolves_to slots rs → length rs = length slots.
Proof. intros H. symmetry. eapply Forall2_length, H. Qed.

Lemma resolves_to_present (k : nat) (slots rs : view) :
  resolves_to slots rs → (present_from k rs).*1 = (present_from k slots).*1.
Proof.
  intros H. revert k.
  induction H as [|[x|] [el|] slots rs H _ IH]; intros k; try done; simpl.
  - by rewrite IH.
  - apply IH.
Qed.

Lemma resolves_to_lookup (slots rs : view) (i : nat) (el : value) :
  resolves_to slots rs → rs !! i = Some (Some el) →
  ∃ x, slots !! i = Some (Some x) ∧ final_of x = Fulfilled el.
Proof.
  intros H Hi. destruct (Forall2_lookup_r _ _ _ _ _ H Hi) as (s & Hs & Hrel).
  destruct s as [x|]; [eauto | done].
Qed.

Lemma resolves_to_functional (slots rs rs' : view) :
  resolves_to slots rs → resolves_to slots rs' → rs = rs'.
Proof.
  intros H. revert rs'.
  induction H as [|[x|] [el|] slots rs H _ IH]; intros rs' H'; try done.
  - by inversion H'.
  - inversion H' as [|? [el'|] ? rest Hx Hrest]; subst; [|done].
    f_equal; [congruence|by apply IH].
  - inversion H' as [|? [el'|] ? rest Hx Hrest]; subst; [done|].
    f_equal. by apply IH.
Qed.

Lemma hole_pattern_length (a : view) : length (hole_pattern a) = length a.
Proof. unfold hole_pattern. by rewrite length_fmap. Qed.

Lemma hole_pattern_lookup (a b : view) (i : nat) :
  hole_pattern a = hole_pattern b → (a !! i = Some None ↔ b !! i = Some None).
Proof.
  unfold hole_pattern. intros H.
  assert ((is_hole <$> a) !! i = (is_hole <$> b) !! i) as Hi
    by (rewrite H; reflexivity).
  rewrite !list_lookup_fmap in Hi.
  destruct (a !! i) as [[?|]|], (b !! i) as [[?|]|]; simpl in Hi;
    try discriminate; split; congruence.
Qed.

Lemma present_from_lookup (k : nat) (slots : view) (i : nat) (x : value) :
  (i, x) ∈ present_from k slots ↔ k ≤ i ∧ slots !! (i - k) = Some (Some x).
Proof.
  revert k. induction slots as [|[y|] rest IH]; intros k; simpl.
  - rewrite elem_of_nil, lookup_nil. split; [done | by intros [_ ?]].
  - rewrite elem_of_cons, IH. split.
    + intros [[= -> ->]|[Hk Hl]].
      * split; [lia|]. by replace (k - k) with 0 by lia.
      * split; [lia|]. by replace (i - k) with (S (i - S k)) by lia.
    + intros [Hk Hl]. destruct (decide (i = k)) as [->|Hne].
      * left. replace (k - k) with 0 in Hl by lia. simpl in Hl. congruence.
      * right. split; [lia|].
        by replace (i - k) with (S (i - S k)) in Hl by lia.
  - rewrite IH. split.
    + intros [Hk Hl]. split; [lia|].
      by replace (i - k) with (S (i - S k)) by lia.
    + intros [Hk Hl]. destruct (decide (i = k)) as [->|Hne].
      * replace (k - k) with 0 in Hl by lia. done.
      * split; [lia|]. by replace (i - k) with (S (i - S k)) in Hl by lia.
Qed.

Lemma present_from_bound (k : nat) (slots : view) :
  Forall (λ i, k ≤ i) (present_from k slots).*1.
Proof.
  revert k. induction slots as [|[y|] rest IH]; intros k; simpl.
  - constructor.
  - constructor; [lia|]. eapply Forall_impl; [apply IH|]. simpl. lia.
  - eapply Forall_impl; [apply IH|]. simpl. lia.
Qed.

Lemma present_from_NoDup (k : nat) (slots : view) :
  NoDup (present_from k slots).*1.
Proof.
  revert k. induction slots as [|[y|] rest IH]; intros k; simpl.
  - constructor.
  - constructor; [|apply IH].
    intros Hin. pose proof (present_from_bound (S k) rest) as Hb.
    rewrite Forall_forall in Hb. specialize (Hb _ Hin). lia.
  - apply IH.
Qed.

(** ** The serial element resolution *)

Lemma resolveSerially_Ok (now k : nat) (slots rs : view) :
  result (resolveSerially now k slots) = Ok rs → resolves_to slots rs.
Proof.
  revert now k rs. induction slots as [|[x|] rest IH]; intros now k rs; simpl.
  - intros [= <-]. constructor.
  - destruct (settled_of (final_of x)) as [el|e] eqn:E; simpl; [|discriminate].
    destruct (result (resolveSerially _ (S k) rest)) as [vs|e] eqn:R;
      [|discriminate].
    intros [= <-]. constructor; [|by eapply IH].
    destruct (final_of x); simpl in E; congruence.
  - destruct (result (resolveSerially now (S k) rest)) as [vs|e] eqn:R;
      [|discriminate].
    intros [= <-]. constructor; [done | by eapply IH].
Qed.

Lemma resolveSerially_fulfils (now k : nat) (slots : view) :
  (∀ i x, slots !! i = Some (Some x) → ∃ el, final_of x = Fulfilled el) →
  ∃ rs, result (resolveSerially now k slots) = Ok rs.
Proof.
  revert now k. induction slots as [|[x|] rest IH]; intros now k H; simpl.
  - eauto.
  - destruct (H 0 x eq_refl) as [el Hel]. rewrite Hel. simpl.
    destruct (IH (now `max` delay_of x) (S k)) as [rs ->]; [|eauto].
    intros i y Hi. apply (H (S i) y Hi).
  - destruct (IH now (S k)) as [rs ->]; [|eauto].
    intros i y Hi. apply (H (S i) y Hi).
Qed.

Lemma resolves_to_exists (slots : view) :
  (∀ j x, slots !! j = Some (Some x) → ∃ el, final_of x = Fulfilled el) →
  ∃ rs, resolves_to slots rs.
Proof.
  intros H. destruct (resolveSerially_fulfils 0 0 slots H) as [rs Hrs].
  exists rs. by eapply resolveSerially_Ok.
Qed.

Lemma resolveSerially_trace (now k : nat) (slots : view) :
  ∃ es,
    (trace (resolveSerially now k slots)).*2 = ElementSettled <$> es
    ∧ es `prefix_of` (present_from k slots).*1
    ∧ (∀ rs, result (resolveSerially now k slots) = Ok rs →
         es = (present_from k slots).*1).
Proof.
  revert now k. induction slots as [|[x|] rest IH]; intros now k; simpl.
  - exists []. done.
  - destruct (settled_of (final_of x)) as [el|e]; simpl.
    + destruct (IH (now `max` delay_of x) (S k)) as (es & Ht & Hp & Hall).
      exists (k :: es). split; [|split].
      * simpl. f_equal. exact Ht.
      * apply prefix_cons. exact Hp.
      * intros rs Hrs. f_equal.
        destruct (result (resolveSerially _ (S k) rest)) as [vs|e'];
          [by eapply Hall | discriminate].
    + exists [k]. split; [done|]. split; [|discriminate].
      apply prefix_cons, prefix_nil.
  - destruct (IH now (S k)) as (es & Ht & Hp & Hall).
    exists es. split; [done|]. split; [done|].
    intros rs Hrs.
    destruct (result (resolveSerially now (S k) rest)) as [vs|e'];
      [by eapply Hall | discriminate].
Qed.

(** ** Invocations in a trace *)

Lemma invocations_app (l1 l2 : log) :
  invocations (l1 ++ l2) = invocations l1 ++ invocations l2.
Proof. unfold invocations. by rewrite fmap_app, omap_app. Qed.

Lemma invoked_elements (es : list nat) :
  omap invoked_index (ElementSettled <$> es) = [].
Proof. induction es as [|i es IH]; [done|exact IH]. Qed.

Lemma invoked_calls (cs : list (nat * value)) (th a : value) :
  omap invoked_index (cs ≫= call_events th a) = cs.*1.
Proof. induction cs as [|[i el] cs IH]; [done|]. simpl. f_equal. exact IH. Qed.

Lemma invocations_two_phases (l : log) (es : list nat) (cs : list (nat * value))
    (th a : value) :
  l.*2 = (ElementSettled <$> es) ++ (cs ≫= call_events th a) →
  invocations l = cs.*1.
Proof.
  unfold invocations. intros ->.
  by rewrite omap_app, invoked_elements, invoked_calls.
Qed.

Lemma prefix_sublist {A : Type} (l1 l2 : list A) :
  l1 `prefix_of` l2 → l1 `sublist_of` l2.
Proof. intros [k ->]. by apply sublist_inserts_r. Qed.

Lemma present_index_lookup (slots : view) (i : nat) :
  i ∈ (present slots).*1 → ∃ x, slots !! i = Some (Some x).
Proof.
  intros H. apply list_elem_of_fmap in H as ([j x] & -> & H).
  apply present_from_lookup in H as [_ H]. simpl.
  replace (j - 0) with j in H by lia. eauto.
Qed.

(** ** The parallel resolver *)

Lemma promiseAllWithHoles_Ok (now : nat) (slots : view) (t : nat) (rs : view) :
  promiseAllWithHoles now slots = (t, Ok rs) → resolves_to slots rs.
Proof.
  unfold promiseAllWithHoles. revert t rs.
  induction slots as [|[x|] rest IH]; intros t rs; simpl.
  - intros [= <- <-]. constructor.
  - destruct (final_of x) as [el|e] eqn:E; simpl.
    + destruct (combine_slots now _) as [t' [vs|e']] eqn:C; [|discriminate].
      intros [= <- <-]. constructor; [done | by eapply IH].
    + destruct (combine_slots now _) as [t' [vs|e']]; [discriminate|].
      case_decide; discriminate.
  - destruct (combine_slots now _) as [t' [vs|e']] eqn:C; [|discriminate].
    intros [= <- <-]. constructor; [done | by eapply IH].
Qed.

Lemma promiseAllWithHoles_resolves (now : nat) (slots rs : view) :
  resolves_to slots rs → ∃ t, promiseAllWithHoles now slots = (t, Ok rs).
Proof.
  unfold promiseAllWithHoles.
  induction 1 as [|[x|] [el|] slots rs H _ [t IH]]; try done;
    rewrite ?fmap_cons; cbn [combine_slots fmap option_fmap option_map await].
  - eauto.
  - rewrite H, IH. simpl. eauto.
  - rewrite IH. eauto.
Qed.

Lemma element_events_elements (now k : nat) (slots : view) :
  (element_events now k slots).*2 = ElementSettled <$> (present_from k slots).*1.
Proof.
  revert k. induction slots as [|[x|] rest IH]; intros k; simpl; [done| |apply IH].
  f_equal. apply IH.
Qed.

Lemma element_events_invocations (now k : nat) (slots : view) :
  invocations (chronological (element_events now k slots)) = [].
Proof.
  apply Permutation_nil_r. rewrite invocations_chronological.
  unfold invocations. by rewrite element_events_elements, invoked_elements.
Qed.

Lemma element_events_not_invoked (now k : nat) (slots : view) (t j : nat)
    (th el a : value) :
  (t, Invoked j th el a) ∉ chronological (element_events now k slots).
Proof.
  rewrite elem_of_chronological. intros H.
  apply (list_elem_of_fmap_2 snd) in H. rewrite element_events_elements in H.
  apply list_elem_of_fmap in H as (i & Hi & _). discriminate.
Qed.

Section parallel_facts.
Variables (now : nat) (f : callable) (thisArg arr : value).

Lemma parallel_slot_result (i : nat) (el : value) :
  result (parallel_slot now f thisArg arr i el)
  = call_outcome (f now thisArg el i arr).
Proof. apply settle_call_outcome. Qed.

Lemma parallel_slot_invoked (i : nat) (el : value) (t j : nat) (th e a : value) :
  (t, Invoked j th e a) ∈ trace (parallel_slot now f thisArg arr i el) →
  j = i ∧ th = thisArg ∧ a = arr ∧ e = el.
Proof.
  unfold parallel_slot, call_trace. simpl. intros H.
  repeat (apply elem_of_cons in H as [H|H]);
    try (by apply elem_of_nil in H); by simplify_eq.
Qed.

Lemma parallel_from_length (k : nat) (slots : view) :
  length (parallel_from now f thisArg arr k slots) = length slots.
Proof.
  revert k. induction slots as [|[x|] rest IH]; intros k; simpl; by rewrite ?IH.
Qed.

Lemma parallel_from_holes (k : nat) (slots : view) :
  all_fulfilled (settlements (parallel_from now f thisArg arr k slots)) →
  hole_pattern (slot_values (settlements (parallel_from now f thisArg arr k slots)))
  = hole_pattern slots.
Proof.
  revert k. induction slots as [|[x|] rest IH]; intros k; simpl.
  - done.
  - inversion 1 as [|? ? Hs Hrest]. destruct (Hs _ eq_refl) as [v Hv].
    simpl in Hv. rewrite Hv. simpl. f_equal. exact (IH (S k) Hrest).
  - inversion 1 as [|? ? Hs Hrest]. f_equal. exact (IH (S k) Hrest).
Qed.

(** The callable is invoked for every PRESENT slot, once. *)
Lemma parallel_from_invocations (k : nat) (slots : view) :
  invocations (slot_traces (parallel_from now f thisArg arr k slots))
  = (present_from k slots).*1.
Proof.
  revert k. induction slots as [|[x|] rest IH]; intros k;
    cbn [parallel_from slot_traces present_from].
  - done.
  - rewrite invocations_app, IH. done.
  - apply IH.
Qed.

Lemma parallel_from_invoked (k : nat) (slots : view) (t j : nat) (th el a : value) :
  (t, Invoked j th el a) ∈ slot_traces (parallel_from now f thisArg arr k slots) →
  th = thisArg ∧ a = arr ∧ k ≤ j ∧ slots !! (j - k) = Some (Some el).
Proof.
  revert k. induction slots as [|[x|] rest IH]; intros k;
    cbn [parallel_from slot_traces].
  - by rewrite elem_of_nil.
  - rewrite elem_of_app. intros [H|H].
    + apply parallel_slot_invoked in H as (-> & -> & -> & ->).
      split; [done|]. split; [done|]. split; [lia|].
      by replace (k - k) with 0 by lia.
    + apply IH in H as (-> & -> & Hk & Hy).
      split; [done|]. split; [done|]. split; [lia|].
      by replace (j - k) with (S (j - S k)) by lia.
  - intros H. apply IH in H as (-> & -> & Hk & Hy).
    split; [done|]. split; [done|]. split; [lia|].
    by replace (j - k) with (S (j - S k)) by lia.
Qed.

Lemma parallel_from_values (k : nat) (slots : view) :
  all_fulfilled (settlements (parallel_from now f thisArg arr k slots)) →
  ∀ j el, slots !! j = Some (Some el) →
    ∃ w, call_outcome (f now thisArg el (k + j) arr) = Ok w
      ∧ slot_values (settlements (parallel_from now f thisArg arr k slots)) !! j
        = Some (Some w).
Proof.
  revert k. induction slots as [|[x|] rest IH]; intros k Hall j y Hj.
  - by rewrite lookup_nil in Hj.
  - simpl in Hall. inversion Hall as [|? ? Hs Hrest]; subst.
    destruct j as [|j]; simpl in Hj.
    + simplify_eq. destruct (Hs _ eq_refl) as [w Hw]. simpl in Hw.
      pose proof Hw as Hw'. rewrite settle_call_outcome in Hw'.
      exists w. replace (k + 0) with k by lia.
      split; [done|]. simpl. by rewrite Hw.
    + destruct (IH (S k) Hrest j y Hj) as (w & H2 & H3).
      exists w. replace (k + S j) with (S k + j) by lia. done.
  - simpl in Hall. inversion Hall as [|? ? Hs Hrest]; subst.
    destruct j as [|j]; simpl in Hj; [discriminate|].
    destruct (IH (S k) Hrest j y Hj) as (w & H2 & H3).
    exists w. replace (k + S j) with (S k + j) by lia. done.
Qed.

Lemma parallel_from_fulfils (k : nat) (slots : view) :
  (∀ j el, slots !! j = Some (Some el) →
     ∃ w, call_outcome (f now thisArg el (k + j) arr) = Ok w) →
  all_fulfilled (settlements (parallel_from now f thisArg arr k slots)).
Proof.
  revert k. induction slots as [|[x|] rest IH]; intros k H; simpl.
  - constructor.
  - constructor.
    + intros p [= <-]. simpl. rewrite settle_call_outcome.
      destruct (H 0 x eq_refl) as (w & Hw).
      replace (k + 0) with k in Hw by lia. eauto.
    + apply IH. intros j y Hj. destruct (H (S j) y Hj) as (w & H2).
      exists w. by replace (S k + j) with (k + S j) by lia.
  - constructor; [discriminate|].
    apply IH. intros j y Hj. destruct (H (S j) y Hj) as (w & H2).
    exists w. by replace (S k + j) with (k + S j) by lia.
Qed.

Lemma parallel_from_slot_values_length (k : nat) (slots : view) :
  length (slot_values (settlements (parallel_from now f thisArg arr k slots)))
  = length slots.
Proof.
  unfold slot_values, settlements. by rewrite !length_fmap, parallel_from_length.
Qed.
End parallel_facts.

(** ** The serial call chains *)

Lemma map_step_eq (f : callable) (thisArg : value) (whole : view) (el : value)
    (i now : nat) (m : view) :
  concrete m → i < length m →
  map_step f thisArg whole el i now m
  = let c := f now thisArg el i (VArr whole) in
    Task (settle_call now c).1
         (match call_outcome c with
          | Ok w => Ok (<[i := Some w]> m)
          | Fail e => Fail e
          end)
         (call_trace now thisArg el i (VArr whole) c).
Proof.
  intros Hm Hi. unfold map_step.
  destruct (f now thisArg el i (VArr whole)) as [r|e]; [|reflexivity].
  cbv zeta. unfold array_set. rewrite decide_True by done.
  rewrite promiseAllWithHoles_insert by done.
  rewrite await_Promise_resolve. reflexivity.
Qed.

Section chain_facts.
Context {A : Type}.
Variables (thisArg arr : value) (step : value → nat → nat → A → task A).
Hypothesis step_trace : ∀ el i now a,
  (trace (step el i now a)).*2 = call_events thisArg arr (i, el).

(** The calls of a chain happen slot after slot, ascending, each one with
    its result settled before the next call, up to the first failure. *)
Lemma chain_trace (k : nat) (slots : view) (now : nat) (a : A) :
  ∃ cs,
    (trace (chain step k slots now a)).*2 = cs ≫= call_events thisArg arr
    ∧ cs `prefix_of` present_from k slots
    ∧ (∀ out, result (chain step k slots now a) = Ok out →
         cs = present_from k slots).
Proof.
  revert k now a. induction slots as [|[el|] rest IH]; intros k now a; simpl.
  - exists []. done.
  - unfold then_. destruct (result (step el k now a)) as [a'|e] eqn:R; simpl.
    + destruct (IH (S k) (settles (step el k now a)) a') as (cs & Ht & Hp & Hall).
      exists ((k, el) :: cs). split; [|split].
      * rewrite fmap_app, step_trace, Ht. reflexivity.
      * by apply prefix_cons.
      * intros out Hout. f_equal. by eapply Hall.
    + exists [(k, el)]. split; [|split].
      * rewrite step_trace. reflexivity.
      * apply prefix_cons, prefix_nil.
      * discriminate.
  - apply IH.
Qed.
End chain_facts.

Section map_chain.
Variables (f : callable) (thisArg : value) (whole : view).

Lemma chain_map_Ok (k : nat) (rest : view) (now : nat) (m out : view) :
  concrete m → k + length rest ≤ length m →
  result (chain (map_step f thisArg whole) k rest now m) = Ok out →
  length out = length m ∧ concrete out
  ∧ (∀ j, j < k ∨ k + length rest ≤ j → out !! j = m !! j)
  ∧ (∀ j, rest !! j = Some None → out !! (k + j) = m !! (k + j))
  ∧ (∀ j el, rest !! j = Some (Some el) →
       ∃ t w, call_outcome (f t thisArg el (k + j) (VArr whole)) = Ok w
              ∧ out !! (k + j) = Some (Some w)).
Proof.
  revert k now m. induction rest as [|[el|] rest IH]; intros k now m Hm Hk; simpl.
  - intros [= <-]. repeat split; done.
  - simpl in Hk. rewrite map_step_eq by (done || lia). cbv zeta.
    unfold then_ at 1. cbn [result settles trace].
    destruct (call_outcome (f now thisArg el k (VArr whole))) as [w|e] eqn:Hc;
      [|discriminate].
    cbn [result]. intros Hout.
    apply IH in Hout as (Hlen & Hconc & Hout1 & Hout2 & Hout3).
    + rewrite length_insert in Hlen. repeat split; try done.
      * intros j Hj. rewrite Hout1 by lia. apply list_lookup_insert_ne. lia.
      * intros [|j] Hj; simpl in Hj; [discriminate|].
        replace (k + S j) with (S k + j) by lia.
        rewrite (Hout2 j Hj). apply list_lookup_insert_ne. lia.
      * intros [|j] el' Hj; simpl in Hj.
        -- simplify_eq. exists now, w. split; [by replace (k + 0) with k by lia|].
           replace (k + 0) with k by lia. rewrite Hout1 by lia.
           apply list_lookup_insert_eq. lia.
        -- destruct (Hout3 j el' Hj) as (t & w' & H1 & H2).
           exists t, w'. by replace (k + S j) with (S k + j) by lia.
    + apply concrete_insert; [done|]. eapply call_outcome_concrete, Hc.
    + rewrite length_insert. lia.
  - simpl in Hk. intros Hout.
    apply IH in Hout as (Hlen & Hconc & Hout1 & Hout2 & Hout3); [|done|lia].
    repeat split; try done.
    + intros j Hj. apply Hout1. lia.
    + intros [|j] Hj; simpl in Hj.
      * replace (k + 0) with k by lia. apply Hout1. lia.
      * replace (k + S j) with (S k + j) by lia. by apply Hout2.
    + intros [|j] el' Hj; simpl in Hj; [discriminate|].
      destruct (Hout3 j el' Hj) as (t & w' & H1 & H2).
      exists t, w'. by replace (k + S j) with (S k + j) by lia.
Qed.

Lemma chain_map_fulfils (k : nat) (rest : view) (now : nat) (m : view) :
  concrete m → k + length rest ≤ length m →
  (∀ j el t, rest !! j = Some (Some el) →
     ∃ w, call_outcome (f t thisArg el (k + j) (VArr whole)) = Ok w) →
  ∃ out, result (chain (map_step f thisArg whole) k rest now m) = Ok out.
Proof.
  revert k now m. induction rest as [|[el|] rest IH]; intros k now m Hm Hk H; simpl.
  - eauto.
  - simpl in Hk. rewrite map_step_eq by (done || lia). cbv zeta.
    unfold then_ at 1. cbn [result settles trace].
    destruct (H 0 el now eq_refl) as [w Hw].
    replace (k + 0) with k in Hw by lia. rewrite Hw. cbn [result].
    apply IH.
    + apply concrete_insert; [done|]. eapply call_outcome_concrete, Hw.
    + rewrite length_insert. lia.
    + intros j el' t Hj. replace (S k + j) with (k + S j) by lia.
      by apply H.
  - simpl in Hk. apply IH; [done|lia|].
    intros j el' t Hj. replace (S k + j) with (k + S j) by lia. by apply H.
Qed.

Lemma map_step_trace (el : value) (i now : nat) (m : view) :
  (trace (map_step f thisArg whole el i now m)).*2
  = call_events thisArg (VArr whole) (i, el).
Proof.
  unfold map_step. by destruct (f now thisArg el i (VArr whole)).
Qed.

Lemma each_step_trace (el : value) (i now : nat) (a : value) :
  (trace (each_step f thisArg whole el i now a)).*2
  = call_events thisArg (VArr whole) (i, el).
Proof. reflexivity. Qed.

Lemma chain_each_fulfils (k : nat) (rest : view) (now : nat) (a : value) :
  (∀ j el t, rest !! j = Some (Some el) →
     ∃ w, call_outcome (f t thisArg el (k + j) (VArr whole)) = Ok w) →
  ∃ v, result (chain (each_step f thisArg whole) k rest now a) = Ok v.
Proof.
  revert k now a. induction rest as [|[el|] rest IH]; intros k now a H; simpl.
  - eauto.
  - unfold then_ at 1. unfold each_step at 1. cbn [result settles trace].
    rewrite settle_call_outcome.
    destruct (H 0 el now eq_refl) as [w Hw].
    replace (k + 0) with k in Hw by lia. rewrite Hw. cbn [result].
    apply IH. intros j el' t Hj. replace (S k + j) with (k + S j) by lia.
    by apply H.
  - apply IH. intros j el' t Hj. replace (S k + j) with (k + S j) by lia.
    by apply H.
Qed.
End map_chain.

(** ** The operations, run on a settled eligible input *)

Lemma then_now {A B : Type} (now : nat) (a : A) (k : nat → A → task B) :
  then_ (Task now (Ok a) []) k = k now a.
Proof. unfold then_. simpl. by destruct (k now a). Qed.

Lemma await_start (input : value) : (await 0 input).1 = delay_of input.
Proof. reflexivity. Qed.

Lemma mapAF_run (mode : bool) (input arr : value) (f : callable) (thisArg : value) :
  final_of input = Fulfilled arr → permissiveIsArrayLike arr = true →
  mapAF (Wrapper input mode) (Fn f) thisArg
  = Return (chained_of mode
      (as_array (if mode then serial_map f thisArg (delay_of input) arr
                 else parallel (delay_of input) arr (Fn f) thisArg))).
Proof.
  intros Hin Harr. unfold mapAF, wrapper_then. cbn [data inSeries].
  rewrite await_outcome, Hin, await_start. cbn [settled_of]. rewrite Harr.
  cbn [negb]. unfold chained_of. destruct mode; [|reflexivity].
  unfold serial_map.
  replace (then_ (serial (delay_of input) arr) _)
    with (then_ (serial (delay_of input) arr) (λ now rs,
            chain (map_step f thisArg rs) 0 rs now
              (Array (Z.to_nat (to_uint32 (Z.of_nat (length rs))))))); [done|].
  apply then_ext. intros now rs. unfold reduce.
  etrans; [|symmetry; apply (reduce_chain (λ el i w, map_step f thisArg w el i))].
  by rewrite then_now.
Qed.

Lemma forEachAF_run (mode : bool) (input arr : value) (f : callable) (thisArg : value) :
  final_of input = Fulfilled arr → permissiveIsArrayLike arr = true →
  forEachAF (Wrapper input mode) (Fn f) thisArg
  = Return (chained_of mode
      (then_ (if mode then serial_each f thisArg (delay_of input) arr
              else as_array (parallel (delay_of input) arr (Fn f) thisArg))
             (λ now _, Task now (Ok VUndefined) []))).
Proof.
  intros Hin Harr. unfold forEachAF, wrapper_then. cbn [data inSeries].
  rewrite await_outcome, Hin, await_start. cbn [settled_of]. rewrite Harr.
  cbn [negb]. unfold chained_of. destruct mode; [|reflexivity].
  unfold serial_each.
  replace (then_ (serial (delay_of input) arr) _)
    with (then_ (serial (delay_of input) arr) (λ now rs,
            chain (each_step f thisArg rs) 0 rs now VUndefined)); [done|].
  apply then_ext. intros now rs. unfold reduce.
  etrans; [|symmetry; apply (reduce_chain (λ el i w, each_step f thisArg w el i))].
  by rewrite then_now.
Qed.

Lemma to_uint32_length (rs : view) :
  array_sized rs → Z.to_nat (to_uint32 (Z.of_nat (length rs))) = length rs.
Proof.
  unfold array_sized, to_uint32. intros H.
  rewrite Z.mod_small by lia. apply Nat2Z.id.
Qed.

Lemma hole_pattern_eq (a b : view) :
  length a = length b →
  (∀ j, b !! j = Some None → a !! j = Some None) →
  (∀ j x, b !! j = Some (Some x) → ∃ w, a !! j = Some (Some w)) →
  hole_pattern a = hole_pattern b.
Proof.
  intros Hlen Hh Hp. unfold hole_pattern. apply list_eq. intros j.
  rewrite !list_lookup_fmap. destruct (b !! j) as [[x|]|] eqn:E.
  - destruct (Hp j x E) as [w ->]. done.
  - by rewrite (Hh j E).
  - apply lookup_ge_None in E. rewrite <- Hlen in E.
    apply lookup_ge_None in E. by rewrite E.
Qed.

Lemma Array_lookup (n j : nat) : j < n → Array n !! j = Some None.
Proof. intros H. unfold Array. by apply lookup_replicate_2. Qed.

Lemma Array_length (n : nat) : length (Array n) = n.
Proof. apply length_replicate. Qed.

Section serial_map_facts.
Variables (f : callable) (thisArg : value) (now : nat) (arr : value).
Hypothesis sized : array_sized (normalise arr).

Lemma serial_map_Ok (out : view) :
  result (serial_map f thisArg now arr) = Ok out →
  ∃ rs, resolves_to (normalise arr) rs
    ∧ length out = length rs
    ∧ hole_pattern out = hole_pattern rs
    ∧ (∀ j el, rs !! j = Some (Some el) →
         ∃ t w, call_outcome (f t thisArg el j (VArr rs)) = Ok w
                ∧ out !! j = Some (Some w)).
Proof.
  unfold serial_map, then_, serial.
  destruct (result (resolveSerially now 0 (normalise arr))) as [rs|e] eqn:R;
    [|discriminate].
  cbn [result]. apply resolveSerially_Ok in R.
  assert (array_sized rs) as Hrs.
  { unfold array_sized in *. by rewrite (resolves_to_length _ _ R). }
  rewrite (to_uint32_length rs Hrs). intros Hout.
  apply chain_map_Ok in Hout as (Hlen & _ & _ & Hh & Hp);
    [|apply concrete_Array|rewrite Array_length; simpl; lia].
  rewrite Array_length in Hlen.
  exists rs. split; [done|]. split; [done|]. split; [|exact Hp].
  apply hole_pattern_eq; [done| |].
  - intros j Hj. pose proof (Hh j Hj) as Hj'. simpl in Hj'. rewrite Hj'.
    apply Array_lookup. by eapply lookup_lt_Some.
  - intros j x Hj. destruct (Hp j x Hj) as (t & w & _ & Hw). eauto.
Qed.

Lemma serial_map_fulfils :
  (∀ j x, normalise arr !! j = Some (Some x) → ∃ el, final_of x = Fulfilled el) →
  (∀ rs j el t, resolves_to (normalise arr) rs → rs !! j = Some (Some el) →
     ∃ w, call_outcome (f t thisArg el j (VArr rs)) = Ok w) →
  ∃ out, result (serial_map f thisArg now arr) = Ok out.
Proof.
  intros Hel Hf. unfold serial_map, then_, serial.
  destruct (resolveSerially_fulfils now 0 (normalise arr) Hel) as [rs R].
  rewrite R. cbn [result]. apply resolveSerially_Ok in R.
  assert (array_sized rs) as Hrs.
  { unfold array_sized in *. by rewrite (resolves_to_length _ _ R). }
  rewrite (to_uint32_length rs Hrs).
  apply chain_map_fulfils; [apply concrete_Array|rewrite Array_length; simpl; lia|].
  intros j el t Hj. simpl. by apply Hf.
Qed.
End serial_map_facts.

(** The trace of a serial run: first every element, ascending, then every
    call, ascending. *)
Lemma serial_then_chain_trace {A : Type} (thisArg : value) (now : nat) (arr : value)
    (step : view → value → nat → nat → A → task A) (init : view → A) :
  (∀ rs el i t a, (trace (step rs el i t a)).*2 = call_events thisArg (VArr rs) (i, el)) →
  let q := then_ (serial now arr) (λ t rs, chain (step rs) 0 rs t (init rs)) in
  ∃ es cs a,
    (trace q).*2 = (ElementSettled <$> es) ++ (cs ≫= call_events thisArg a)
    ∧ es `prefix_of` (present (normalise arr)).*1
    ∧ cs.*1 `prefix_of` (present (normalise arr)).*1
    ∧ (cs = [] ∨ ∃ rs, resolves_to (normalise arr) rs ∧ a = VArr rs
                   ∧ cs `prefix_of` present rs
                   ∧ es = (present (normalise arr)).*1)
    ∧ (∀ out, result q = Ok out →
         es = (present (normalise arr)).*1 ∧ cs.*1 = (present (normalise arr)).*1).
Proof.
  intros Hstep q. subst q. unfold then_, serial.
  destruct (resolveSerially_trace now 0 (normalise arr)) as (es & Ht & Hp & Hall).
  destruct (result (resolveSerially now 0 (normalise arr))) as [rs|e] eqn:R.
  - cbn [result trace]. specialize (Hall rs eq_refl).
    pose proof (resolveSerially_Ok _ _ _ _ R) as Hres.
    destruct (chain_trace thisArg (VArr rs) (step rs) (Hstep rs) 0 rs
                (settles (resolveSerially now 0 (normalise arr))) (init rs))
      as (cs & Hc & Hcp & Hcall).
    exists es, cs, (VArr rs). split; [|split; [|split; [|split]]].
    + by rewrite fmap_app, Ht, Hc.
    + done.
    + unfold present. rewrite <- (resolves_to_present 0 _ _ Hres).
      destruct Hcp as [k ->]. rewrite fmap_app. by eexists.
    + right. by exists rs.
    + intros out Hout. split; [done|].
      unfold present. rewrite <- (resolves_to_present 0 _ _ Hres).
      f_equal. by eapply Hcall.
  - cbn [result trace]. exists es, [], VUndefined.
    split; [|split; [|split; [|split]]]; try done.
    + by rewrite Ht, app_nil_r.
    + apply prefix_nil.
    + by left.
Qed.

Section parallel_run_facts.
Variables (f : callable) (thisArg : value) (now : nat) (arr : value).

Lemma parallel_unfold :
  parallel now arr (Fn f) thisArg
  = then_ (Task (promiseAllWithHoles now (normalise arr)).1
                (promiseAllWithHoles now (normalise arr)).2
                (chronological (element_events now 0 (normalise arr))))
      (λ t rs,
         Task (combine_slots t (settlements (parallel_runs f thisArg t rs))).1
              (combine_slots t (settlements (parallel_runs f thisArg t rs))).2
              (chronological (slot_traces (parallel_runs f thisArg t rs)))).
Proof. reflexivity. Qed.

Lemma parallel_Ok (out : view) :
  result (parallel now arr (Fn f) thisArg) = Ok out →
  length out = length (normalise arr)
  ∧ hole_pattern out = hole_pattern (normalise arr)
  ∧ invocations (trace (parallel now arr (Fn f) thisArg))
      ≡ₚ (present (normalise arr)).*1
  ∧ ∃ rs t, resolves_to (normalise arr) rs
      ∧ ∀ j el, rs !! j = Some (Some el) →
          ∃ w, call_outcome (f t thisArg el j (VArr rs)) = Ok w
               ∧ out !! j = Some (Some w).
Proof.
  rewrite parallel_unfold. unfold then_. cbn [result settles trace].
  destruct (promiseAllWithHoles now (normalise arr)) as [t [rs|e]] eqn:E;
    cbn [fst snd result settles trace]; [|discriminate].
  apply promiseAllWithHoles_Ok in E.
  destruct (combine_slots t (settlements (parallel_runs f thisArg t rs)))
    as [t' r] eqn:C.
  simpl. intros ->. apply combine_slots_Ok in C as [Hall ->].
  unfold parallel_runs in *.
  split; [rewrite parallel_from_slot_values_length; by apply resolves_to_length|].
  split; [rewrite parallel_from_holes by done; by apply resolves_to_holes|].
  split.
  - rewrite invocations_app, element_events_invocations, invocations_chronological,
      parallel_from_invocations.
    simpl. unfold present. by rewrite (resolves_to_present 0 _ _ E).
  - exists rs, t. split; [done|]. intros j el Hj.
    destruct (parallel_from_values t f thisArg _ 0 _ Hall j el Hj) as (w & H1 & H2).
    eauto.
Qed.

Lemma parallel_invocations :
  ∃ l, invocations (trace (parallel now arr (Fn f) thisArg)) ≡ₚ l
     ∧ l `sublist_of` (present (normalise arr)).*1.
Proof.
  rewrite parallel_unfold. unfold then_. cbn [result settles trace].
  destruct (promiseAllWithHoles now (normalise arr)) as [t [rs|e]] eqn:E;
    cbn [fst snd result settles trace].
  - apply promiseAllWithHoles_Ok in E.
    exists (present (normalise arr)).*1. split; [|done].
    rewrite invocations_app, element_events_invocations, invocations_chronological.
    unfold parallel_runs. rewrite parallel_from_invocations.
    simpl. unfold present. by rewrite (resolves_to_present 0 _ _ E).
  - exists []. split; [by rewrite element_events_invocations|apply sublist_nil_l].
Qed.

Lemma parallel_fulfils :
  (∀ j x, normalise arr !! j = Some (Some x) → ∃ el, final_of x = Fulfilled el) →
  (∀ rs j el t, resolves_to (normalise arr) rs → rs !! j = Some (Some el) →
     ∃ w, call_outcome (f t thisArg el j (VArr rs)) = Ok w) →
  ∃ out, result (parallel now arr (Fn f) thisArg) = Ok out.
Proof.
  intros Hel Hf. destruct (resolves_to_exists _ Hel) as [rs Hres].
  destruct (promiseAllWithHoles_resolves now _ _ Hres) as [t E].
  rewrite parallel_unfold. unfold then_. cbn [result settles trace].
  rewrite E. cbn [fst snd result].
  destruct (combine_slots_all_fulfilled t (settlements (parallel_runs f thisArg t rs)))
    as [t' ->]; [|eauto].
  unfold parallel_runs. apply parallel_from_fulfils. intros j el Hj. by apply Hf.
Qed.

Lemma parallel_invoked (t j : nat) (th el a : value) :
  (t, Invoked j th el a) ∈ trace (parallel now arr (Fn f) thisArg) →
  th = thisArg
  ∧ ∃ rs, resolves_to (normalise arr) rs ∧ a = VArr rs ∧ rs !! j = Some (Some el).
Proof.
  rewrite parallel_unfold. unfold then_. cbn [result settles trace].
  destruct (promiseAllWithHoles now (normalise arr)) as [t0 [rs|e]] eqn:E;
    cbn [fst snd result settles trace].
  - apply promiseAllWithHoles_Ok in E. rewrite elem_of_app.
    intros [H|H]; [by apply element_events_not_invoked in H|].
    rewrite elem_of_chronological in H. unfold parallel_runs in H.
    apply parallel_from_invoked in H as (-> & -> & _ & Hj).
    replace (j - 0) with j in Hj by lia. eauto.
  - intros H. by apply element_events_not_invoked in H.
Qed.
End parallel_run_facts.

(** The settled value of the stage a task is wrapped in. *)
Lemma settled_value_array (mode : bool) (p : task view) :
  settled_value (stage (chained_of mode (as_array p)))
  = match result p with Ok vs => Ok (VArr vs) | Fail e => Fail e end.
Proof. unfold settled_value. simpl. by destruct (result p). Qed.

(** ** Time order of the serial run, invocations of a serial run *)

Lemma runs_from_then {A B : Type} (now : nat) (p : task A) (k : nat → A → task B) :
  runs_from now p →
  (∀ a, result p = Ok a → runs_from (settles p) (k (settles p) a)) →
  runs_from now (then_ p k).
Proof.
  intros (Hp1 & Hp2 & Hp3) Hk. unfold then_.
  destruct (result p) as [a|e] eqn:R; [|done].
  destruct (Hk a eq_refl) as (Hq1 & Hq2 & Hq3).
  unfold runs_from, in_time_order in *. cbn [settles trace].
  rewrite fmap_app. split; [lia|]. split.
  - apply Forall_app. split.
    + eapply Forall_impl; [exact Hp2|]. simpl. lia.
    + eapply Forall_impl; [exact Hq2|]. simpl. lia.
  - apply StronglySorted_app_2; [|done|done].
    intros t1 t2 H1 H2. rewrite Forall_forall in Hp2, Hq2.
    specialize (Hp2 _ H1). specialize (Hq2 _ H2). lia.
Qed.

Lemma runs_from_later {A : Type} (now now' : nat) (q : task A) :
  now ≤ now' → runs_from now' q → runs_from now q.
Proof.
  intros Hle (H1 & H2 & H3). split; [lia|]. split; [|done].
  eapply Forall_impl; [exact H2|]. simpl. lia.
Qed.

Lemma resolveSerially_runs (now k : nat) (slots : view) :
  runs_from now (resolveSerially now k slots).
Proof.
  revert now k. induction slots as [|[x|] rest IH]; intros now k.
  - repeat split; [done|constructor|constructor].
  - cbn [resolveSerially].
    assert (now ≤ (await now x).1) as Hle by (unfold await; simpl; lia).
    destruct ((await now x).2) as [el|e].
    + destruct (IH (await now x).1 (S k)) as (H1 & H2 & H3).
      unfold runs_from, in_time_order in *. cbn [settles trace].
      rewrite fmap_cons. cbn [fst]. split; [lia|]. split.
      * constructor; [lia|]. eapply Forall_impl; [exact H2|]. simpl. lia.
      * constructor; [done|]. eapply Forall_impl; [exact H2|]. simpl. lia.
    + unfold runs_from, in_time_order. cbn [settles trace fmap list_fmap fst].
      split; [done|]. split; repeat constructor; lia.
  - cbn [resolveSerially]. destruct (IH now (S k)) as (H1 & H2 & H3).
    by repeat split.
Qed.

Lemma chain_map_runs (f : callable) (thisArg : value) (whole : view)
    (k : nat) (rest : view) (now : nat) (m : view) :
  concrete m → k + length rest ≤ length m →
  runs_from now (chain (map_step f thisArg whole) k rest now m).
Proof.
  revert k now m. induction rest as [|[el|] rest IH]; intros k now m Hm Hk;
    cbn [chain].
  - repeat split; [done|constructor|constructor].
  - simpl in Hk. apply runs_from_then.
    + rewrite map_step_eq by (done || lia). cbv zeta.
      pose proof (settle_call_after now (f now thisArg el k (VArr whole))) as Hle.
      unfold runs_from, in_time_order, call_trace.
      cbn [settles trace fmap list_fmap fst].
      split; [done|]. split; repeat constructor; lia.
    + intros m' Hm'. rewrite map_step_eq in Hm' |- * by (done || lia).
      cbv zeta in *. cbn [result settles] in *.
      destruct (call_outcome (f now thisArg el k (VArr whole))) as [w|e] eqn:Hc;
        [|discriminate].
      injection Hm' as <-. apply IH.
      * apply concrete_insert; [done|]. eapply call_outcome_concrete, Hc.
      * rewrite length_insert. lia.
  - simpl in Hk. apply IH; [done|lia].
Qed.

Lemma serial_map_runs (f : callable) (thisArg : value) (now : nat) (arr : value) :
  array_sized (normalise arr) →
  in_time_order (trace (serial_map f thisArg now arr)).
Proof.
  intros Hsz. unfold serial_map, serial.
  apply (runs_from_then now); [apply resolveSerially_runs|].
  intros rs R. apply resolveSerially_Ok in R.
  assert (array_sized rs) as Hrs.
  { unfold array_sized in *. by rewrite (resolves_to_length _ _ R). }
  rewrite (to_uint32_length rs Hrs).
  apply chain_map_runs; [apply concrete_Array|rewrite Array_length; simpl; lia].
Qed.


Lemma present_from_sorted (k : nat) (slots : view) :
  StronglySorted lt (present_from k slots).*1.
Proof.
  revert k. induction slots as [|[x|] rest IH]; intros k; simpl.
  - constructor.
  - constructor; [apply IH|].
    eapply Forall_impl; [apply (present_from_bound (S k) rest)|]. simpl. lia.
  - apply IH.
Qed.

Lemma prefix_sorted (l1 l2 : list nat) :
  l1 `prefix_of` l2 → StronglySorted lt l2 → StronglySorted lt l1.
Proof. intros [k ->] H. by apply StronglySorted_app_1_l in H. Qed.

(** ** Concrete elements and their settled copies *)

(** What an invocation of a serial run received. *)
Lemma serial_invoked {A : Type} (thisArg : value) (now : nat) (arr : value)
    (step : view → value → nat → nat → A → task A) (init : view → A)
    (t i : nat) (th el a : value) :
  (∀ rs el i t a, (trace (step rs el i t a)).*2 = call_events thisArg (VArr rs) (i, el)) →
  (t, Invoked i th el a)
    ∈ trace (then_ (serial now arr) (λ t rs, chain (step rs) 0 rs t (init rs))) →
  th = thisArg
  ∧ ∃ rs, resolves_to (normalise arr) rs ∧ a = VArr rs ∧ rs !! i = Some (Some el).
Proof.
  intros Hstep Hin.
  destruct (serial_then_chain_trace thisArg now arr step init Hstep)
    as (es & cs & a0 & Ht & _ & _ & Hor & _).
  apply (list_elem_of_fmap_2 snd) in Hin. rewrite Ht in Hin. simpl in Hin.
  apply elem_of_app in Hin as [Hin|Hin].
  { apply list_elem_of_fmap in Hin as (j & Hj & _). discriminate. }
  apply list_elem_of_bind in Hin as ([j x] & Hev & Hc).
  destruct Hor as [->|(rs & Hres & -> & Hpre & _)]; [by apply elem_of_nil in Hc|].
  unfold call_events in Hev. simpl in Hev.
  apply elem_of_cons in Hev as [Hev|Hev];
    [|apply elem_of_cons in Hev as [Hev|Hev]; [discriminate|by apply elem_of_nil in Hev]].
  injection Hev as -> -> -> ->. split; [done|]. exists rs. split; [done|].
  split; [done|].
  assert ((j, x) ∈ present rs) as Hp.
  { destruct Hpre as [k ->]. apply elem_of_app. by left. }
  apply present_from_lookup in Hp as [_ Hp].
  by replace (j - 0) with j in Hp by lia.
Qed.






Lemma settled_value_undefined (mode : bool) (p : task value) :
  settled_value (stage (chained_of mode (then_ p (λ now _, Task now (Ok VUndefined) []))))
  = match result p with Ok _ => Ok VUndefined | Fail e => Fail e end.
Proof. unfold settled_value, then_. simpl. by destruct (result p). Qed.

Lemma serial_each_fulfils (f : callable) (thisArg : value) (now : nat) (arr : value) :
  (∀ j x, normalise arr !! j = Some (Some x) → ∃ el, final_of x = Fulfilled el) →
  (∀ t th el i a, ∃ w, call_outcome (f t th el i a) = Ok w) →
  ∃ v, result (serial_each f thisArg now arr) = Ok v.
Proof.
  intros Hel Hf. unfold serial_each, then_, serial.
  destruct (resolveSerially_fulfils now 0 (normalise arr) Hel) as [rs ->].
  cbn [result]. apply chain_each_fulfils. intros j el t _. apply Hf.
Qed.

(** ** The two modes compared *)

Section modes.
Variables (f : callable) (thisArg : value) (now : nat) (arr : value).
Hypothesis sized : array_sized (normalise arr).
Hypothesis f_pure : pure f.

Lemma modes_same_output (vs out : view) :
  result (parallel now arr (Fn f) thisArg) = Ok vs →
  result (serial_map f thisArg now arr) = Ok out →
  vs = out.
Proof.
  intros Hp Hs.
  apply parallel_Ok in Hp as (Hlen & Hholes & _ & rs & t & Hres & Hvals).
  apply serial_map_Ok in Hs as (rs' & Hres' & Hlen' & Hholes' & Hvals'); [|done].
  assert (rs' = rs) as -> by (by eapply resolves_to_functional).
  rewrite <- (resolves_to_holes _ _ Hres) in Hholes.
  rewrite <- (resolves_to_length _ _ Hres) in Hlen.
  apply list_eq. intros j.
  destruct (rs !! j) as [[el|]|] eqn:E.
  - destruct (Hvals j el E) as (w & Hw & ->).
    destruct (Hvals' j el E) as (t' & w' & Hw' & ->).
    rewrite (f_pure t t') in Hw. congruence.
  - rewrite (proj2 (hole_pattern_lookup _ _ j Hholes) E).
    by rewrite (proj2 (hole_pattern_lookup _ _ j Hholes') E).
  - apply lookup_ge_None in E.
    rewrite (lookup_ge_None_2 vs j) by lia.
    by rewrite (lookup_ge_None_2 out j) by lia.
Qed.

Lemma parallel_then_serial (vs : view) :
  result (parallel now arr (Fn f) thisArg) = Ok vs →
  result (serial_map f thisArg now arr) = Ok vs.
Proof.
  intros Hp. pose proof Hp as Hp'.
  apply parallel_Ok in Hp' as (_ & _ & _ & rs & t & Hres & Hvals).
  destruct (serial_map_fulfils f thisArg now arr sized) as [out Hout].
  - intros j x Hj.
    destruct (Forall2_lookup_l _ _ _ _ _ Hres Hj) as ([el|] & _ & Hrel); [|done].
    eauto.
  - intros rs' j el t' Hres' Hj.
    rewrite (resolves_to_functional _ _ _ Hres' Hres) in Hj |- *.
    destruct (Hvals j el Hj) as (w & Hw & _).
    exists w. by rewrite (f_pure t' t).
  - by rewrite (modes_same_output vs out Hp Hout).
Qed.

Lemma serial_then_parallel (out : view) :
  result (serial_map f thisArg now arr) = Ok out →
  result (parallel now arr (Fn f) thisArg) = Ok out.
Proof.
  intros Hs. pose proof Hs as Hs'.
  apply serial_map_Ok in Hs' as (rs & Hres & _ & _ & Hvals); [|done].
  destruct (parallel_fulfils f thisArg now arr) as [vs Hvs].
  - intros j x Hj.
    destruct (Forall2_lookup_l _ _ _ _ _ Hres Hj) as ([el|] & _ & Hrel); [|done].
    eauto.
  - intros rs' j el t' Hres' Hj.
    rewrite (resolves_to_functional _ _ _ Hres' Hres) in Hj |- *.
    destruct (Hvals j el Hj) as (t & w & Hw & _).
    exists w. by rewrite (f_pure t' t).
  - by rewrite <- (modes_same_output vs out Hvs Hs).
Qed.
End modes.

Lemma resolves_to_concrete_eq (slots rs : view) :
  concrete slots → resolves_to slots rs → rs = slots.
Proof.
  intros Hc Hres. revert Hc.
  induction Hres as [|[x|] [el|] slots rs H _ IH]; intros Hc; try done.
  - inversion Hc as [|? ? Hx Hrest]; subst.
    rewrite (final_of_concrete x) in H by eauto. injection H as <-.
    by rewrite IH.
  - inversion Hc; subst. by rewrite IH.
Qed.

(** ** The tests of the repository, replayed *)

(** [mapAF] tests: "should map its elements". *)
Example test_map_elements :
  ∃ r, mapAF (Wrapper (VArr [Some (VNum 1); Some (VNum 2); Some (VNum 3); Some (VNum 4)])
                      false) (Fn double) VUndefined = Return r
     ∧ settled_value (stage r)
       = Ok (VArr [Some (VNum 2); Some (VNum 4); Some (VNum 6); Some (VNum 8)]).
Proof. eexists. done. Qed.

(** "should work on an array of promises ... and map its resolved
    elements". *)
Example test_map_resolved_elements :
  ∃ r, mapAF (Wrapper (VArr [Some (VPromise 0 (Fulfilled (VNum 1)));
                             Some (VPromise 0 (Fulfilled (VNum 2)));
                             Some (VPromise 0 (Fulfilled (VNum 3)))]) false)
             (Fn double) VUndefined = Return r
     ∧ settled_value (stage r) = Ok (VArr [Some (VNum 2); Some (VNum 4); Some (VNum 6)]).
Proof. eexists. done. Qed.

(** "should process elements in parallel": on [[3, 2, 1]] the results of
    [delayed] settle in the order 1, 2, 3 of the elements, the last one at
    instant 300; in series they settle in index order, the last one at
    instant 600. *)
Example test_parallel_completion_order :
  ∃ r, mapAF (Wrapper (VArr [Some (VNum 3); Some (VNum 2); Some (VNum 1)]) false)
             (Fn delayed) VUndefined = Return r
     ∧ completions (happened r) = [(100, 2); (200, 1); (300, 0)]
     ∧ data (stage r)
       = VPromise 300
           (Fulfilled (VArr [Some VUndefined; Some VUndefined; Some VUndefined])).
Proof. eexists. done. Qed.

Example test_serial_completion_order :
  ∃ r, mapAF (Wrapper (VArr [Some (VNum 3); Some (VNum 2); Some (VNum 1)]) true)
             (Fn delayed) VUndefined = Return r
     ∧ completions (happened r) = [(300, 0); (500, 1); (600, 2)]
     ∧ data (stage r)
       = VPromise 600
           (Fulfilled (VArr [Some VUndefined; Some VUndefined; Some VUndefined])).
Proof. eexists. done. Qed.

(** "should work on an array-like object". *)
Example test_array_like :
  ∃ r, mapAF (Wrapper (VRec [("0", VNum 1); ("1", VNum 2); ("2", VNum 3);
                             ("length", VNum 3)]) false)
             (Fn double) VUndefined = Return r
     ∧ settled_value (stage r) = Ok (VArr [Some (VNum 2); Some (VNum 4); Some (VNum 6)]).
Proof. eexists. done. Qed.

(** "should preserve holes in sparse arrays". *)
Example test_preserve_holes :
  ∃ r, mapAF (Wrapper (VArr sparse) false) (Fn (λ _ _ n _ _, Return n)) VUndefined
       = Return r
     ∧ settled_value (stage r) = Ok (VArr sparse).
Proof. eexists. done. Qed.

(** "should reject with TypeError: undefined is not a function". *)
Example test_undefined_is_not_a_function :
  ∃ r, mapAF (Wrapper (VArr []) false) (NotFn VUndefined) VUndefined = Return r
     ∧ settled_value (stage r) = Fail (TypeError "undefined is not a function").
Proof. eexists. done. Qed.

(** "should reject with TypeError when called on non-array-like objects",
    for [true] and [2]. *)
Example test_not_array_like :
  (∃ r, mapAF (Wrapper (VBool true) false) (NotFn VUndefined) VUndefined = Return r
      ∧ settled_value (stage r)
        = Fail (TypeError
            "mapAF cannot be called on true, only on an Array or array-like Object"))
  ∧ (∃ r, mapAF (Wrapper (VNum 2) false) (NotFn VUndefined) VUndefined = Return r
        ∧ settled_value (stage r)
          = Fail (TypeError
              "mapAF cannot be called on 2, only on an Array or array-like Object")).
Proof. split; eexists; done. Qed.

(** * The claims *)

(** C1.  Transforming a sparse indexed sequence with [mapAF], in either mode:
    the callable is never invoked for a hole and never twice for a slot;
    whenever the operation yields a collection, that collection has the
    length of the input and holes at exactly the same positions, and the
    callable has been invoked exactly once per PRESENT slot; a collection is
    yielded as soon as no element and no call fails.  In particular
    [[, , 1, , 2, , ,]] transformed by [n => n * 2] yields
    [[, , 2, , 4, , ,]] (length 7) after 2 invocations. *)
Theorem mapAF_preserves_holes :
  (∀ (mode : bool) (input : value) (slots : view) (f : callable) (thisArg : value),
     final_of input = Fulfilled (VArr slots) →
     array_sized slots →
     ∃ r, mapAF (Wrapper input mode) (Fn f) thisArg = Return r
       ∧ NoDup (invocations (happened r))
       ∧ (∀ i, i ∈ invocations (happened r) → ∃ x, slots !! i = Some (Some x))
       ∧ (∀ out, settled_value (stage r) = Ok out →
            ∃ vs, out = VArr vs
              ∧ length vs = length slots
              ∧ hole_pattern vs = hole_pattern slots
              ∧ invocations (happened r) ≡ₚ (present slots).*1)
       ∧ ((∀ i x, slots !! i = Some (Some x) → ∃ el, final_of x = Fulfilled el) →
          (∀ t th el i a, ∃ w, call_outcome (f t th el i a) = Ok w) →
          ∃ vs, settled_value (stage r) = Ok (VArr vs)))
  ∧ (∀ mode : bool,
       ∃ r vs, mapAF (Wrapper (VArr sparse) mode) (Fn double) VUndefined = Return r
         ∧ settled_value (stage r) = Ok (VArr vs)
         ∧ vs = [None; None; Some (VNum 2); None; Some (VNum 4); None; None]
         ∧ length vs = 7
         ∧ hole_pattern vs = hole_pattern sparse
         ∧ invocations (happened r) = [2; 4]
         ∧ length (invocations (happened r)) = 2).
Proof.
  split.
  - intros mode input slots f thisArg Hin Hsz.
    rewrite (mapAF_run mode input (VArr slots) f thisArg Hin eq_refl).
    eexists. split; [reflexivity|]. rewrite settled_value_array.
    cbn [happened chained_of as_array trace]. destruct mode.
    + destruct (serial_then_chain_trace thisArg (delay_of input) (VArr slots)
                  (λ rs, map_step f thisArg rs)
                  (λ rs, Array (Z.to_nat (to_uint32 (Z.of_nat (length rs)))))
                  (map_step_trace f thisArg))
        as (es & cs & a & Ht & Hes & Hcs & _ & Hall).
      fold (serial_map f thisArg (delay_of input) (VArr slots)) in Ht, Hall.
      rewrite (invocations_two_phases _ _ _ _ _ Ht). cbn [normalise] in *.
      split; [|split; [|split]].
      * apply (sublist_NoDup _ (present slots).*1);
          [apply present_from_NoDup | by apply prefix_sublist].
      * intros i Hi. apply present_index_lookup.
        eapply sublist_subseteq; [by apply prefix_sublist|done].
      * intros out Hout.
        destruct (result (serial_map f thisArg (delay_of input) (VArr slots)))
          as [vs|e] eqn:R; [|discriminate].
        injection Hout as <-. exists vs. split; [done|].
        destruct (serial_map_Ok f thisArg _ (VArr slots) Hsz vs R)
          as (rs & Hres & Hlen & Hholes & _).
        split; [by rewrite Hlen, (resolves_to_length _ _ Hres)|].
        split; [by rewrite Hholes, (resolves_to_holes _ _ Hres)|].
        by rewrite (proj2 (Hall vs eq_refl)).
      * intros Hel Hf.
        destruct (serial_map_fulfils f thisArg (delay_of input) (VArr slots) Hsz)
          as [out ->]; eauto.
    + destruct (parallel_invocations f thisArg (delay_of input) (VArr slots))
        as (l & Hperm & Hsub).
      cbn [normalise] in *. split; [|split; [|split]].
      * rewrite Hperm. apply (sublist_NoDup _ (present slots).*1);
          [apply present_from_NoDup | done].
      * intros i Hi. apply present_index_lookup. rewrite Hperm in Hi.
        eapply sublist_subseteq; done.
      * intros out Hout.
        destruct (result (parallel (delay_of input) (VArr slots) (Fn f) thisArg))
          as [vs|e] eqn:R; [|discriminate].
        injection Hout as <-. exists vs. split; [done|].
        destruct (parallel_Ok f thisArg _ (VArr slots) vs R) as (H1 & H2 & H3 & _).
        done.
      * intros Hel Hf.
        destruct (parallel_fulfils f thisArg (delay_of input) (VArr slots))
          as [out ->]; eauto.
  - intros mode. destruct mode; eexists _, _; (split; [reflexivity|]);
      (split; [reflexivity|]); done.
Qed.

Lemma mapAF_preserves_holes_witness :
  final_of (VArr sparse) = Fulfilled (VArr sparse)
  ∧ array_sized sparse
  ∧ (∀ i x, sparse !! i = Some (Some x) → ∃ el, final_of x = Fulfilled el)
  ∧ (∀ t th el i a, ∃ w, call_outcome (double t th el i a) = Ok w)
  ∧ ∃ r vs, mapAF (Wrapper (VArr sparse) true) (Fn double) VUndefined = Return r
      ∧ NoDup (invocations (happened r))
      ∧ settled_value (stage r) = Ok (VArr vs)
      ∧ length vs = length sparse
      ∧ hole_pattern vs = hole_pattern sparse
      ∧ invocations (happened r) ≡ₚ (present sparse).*1.
Proof.
  assert (array_sized sparse) as Hsz by (unfold array_sized; simpl; lia).
  assert (∀ i x, sparse !! i = Some (Some x) → ∃ el, final_of x = Fulfilled el)
    as Hel.
  { intros i x Hi. unfold sparse in Hi.
    do 7 (destruct i as [|i]; [simpl in Hi; simplify_eq; eauto|]). done. }
  assert (∀ t th el i a, ∃ w, call_outcome (double t th el i a) = Ok w) as Hf.
  { intros t th el i a. unfold double. destruct el; simpl; eauto. }
  split; [reflexivity|]. split; [exact Hsz|]. split; [exact Hel|].
  split; [exact Hf|].
  destruct (proj1 mapAF_preserves_holes true (VArr sparse) sparse double VUndefined
              eq_refl Hsz) as (r & Hr & Hnd & _ & Hok & Hyes).
  destruct (Hyes Hel Hf) as [vs Hvs].
  destruct (Hok _ Hvs) as (vs' & Heq & Hlen & Hholes & Hperm).
  injection Heq as <-. exists r, vs. done.
Defined.

(** C2, as stated, fails: in SERIAL mode the element of slot 1 is resolved
    before the callable is invoked for slot 0, although the element of slot 0
    was ready first. *)
Lemma serial_step_after_step_counterexample :
  ∃ r, mapAF (Wrapper (VArr [Some (VPromise 1 (Fulfilled (VNum 1)));
                             Some (VPromise 5 (Fulfilled (VNum 2)))]) true)
             (Fn double) VUndefined = Return r
     ∧ happened r
       = [(1, ElementSettled 0); (5, ElementSettled 1);
          (5, Invoked 0 VUndefined (VNum 1) (VArr [Some (VNum 1); Some (VNum 2)]));
          (5, ResultSettled 0);
          (5, Invoked 1 VUndefined (VNum 2) (VArr [Some (VNum 1); Some (VNum 2)]));
          (5, ResultSettled 1)]
     ∧ ¬ step_after_step (happened r).
Proof.
  eexists. split; [reflexivity|]. split; [reflexivity|].
  intros H. specialize (H 2 1 _ _ eq_refl eq_refl). simpl in H. lia.
Qed.

(** C2, amended.  In SERIAL mode [mapAF] works in two phases.  First the
    elements of the PRESENT slots are resolved, strictly ascending, up to
    the first failure.  Only when all of them are resolved is the callable
    invoked, on the PRESENT slots strictly ascending and up to the first
    failure; the value a call returned settles before the next call.  The
    trace lists these events in the order of their instants. *)
Theorem serial_mapAF_two_phases (input arr : value) (f : callable) (thisArg : value) :
  final_of input = Fulfilled arr →
  permissiveIsArrayLike arr = true →
  array_sized (normalise arr) →
  ∃ r es cs a,
    mapAF (Wrapper input true) (Fn f) thisArg = Return r
    ∧ (happened r).*2 = (ElementSettled <$> es) ++ (cs ≫= call_events thisArg a)
    ∧ in_time_order (happened r)
    ∧ es `prefix_of` (present (normalise arr)).*1
    ∧ cs.*1 `prefix_of` (present (normalise arr)).*1
    ∧ StronglySorted lt es
    ∧ StronglySorted lt cs.*1
    ∧ (cs ≠ [] → es = (present (normalise arr)).*1)
    ∧ (∀ out, settled_value (stage r) = Ok out →
         es = (present (normalise arr)).*1 ∧ cs.*1 = (present (normalise arr)).*1).
Proof.
  intros Hin Harr Hsz. rewrite (mapAF_run true input arr f thisArg Hin Harr).
  destruct (serial_then_chain_trace thisArg (delay_of input) arr
              (λ rs, map_step f thisArg rs)
              (λ rs, Array (Z.to_nat (to_uint32 (Z.of_nat (length rs)))))
              (map_step_trace f thisArg))
    as (es & cs & a & Ht & Hes & Hcs & Hor & Hall).
  fold (serial_map f thisArg (delay_of input) arr) in Ht, Hall.
  eexists _, es, cs, a. split; [reflexivity|].
  rewrite settled_value_array. cbn [happened chained_of as_array trace].
  split; [done|]. split; [by apply serial_map_runs|].
  split; [done|]. split; [done|].
  split; [eapply prefix_sorted; [done|apply present_from_sorted]|].
  split; [eapply prefix_sorted; [done|apply present_from_sorted]|].
  split.
  - intros Hne. destruct Hor as [->|(rs & _ & _ & _ & ->)]; done.
  - intros out Hout.
    destruct (result (serial_map f thisArg (delay_of input) arr)) as [vs|e] eqn:R;
      [|discriminate].
    by apply (Hall vs).
Qed.

Lemma serial_mapAF_two_phases_witness :
  final_of (VArr sparse) = Fulfilled (VArr sparse)
  ∧ permissiveIsArrayLike (VArr sparse) = true
  ∧ array_sized (normalise (VArr sparse))
  ∧ ∃ r es cs a,
      mapAF (Wrapper (VArr sparse) true) (Fn double) VUndefined = Return r
      ∧ (happened r).*2 = (ElementSettled <$> es) ++ (cs ≫= call_events VUndefined a)
      ∧ in_time_order (happened r)
      ∧ es `prefix_of` (present (normalise (VArr sparse))).*1
      ∧ cs.*1 `prefix_of` (present (normalise (VArr sparse))).*1
      ∧ StronglySorted lt es
      ∧ StronglySorted lt cs.*1
      ∧ (cs ≠ [] → es = (present (normalise (VArr sparse))).*1)
      ∧ (∀ out, settled_value (stage r) = Ok out →
           es = (present (normalise (VArr sparse))).*1
           ∧ cs.*1 = (present (normalise (VArr sparse))).*1).
Proof.
  assert (array_sized (normalise (VArr sparse))) as Hsz
    by (unfold array_sized; simpl; lia).
  split; [reflexivity|]. split; [reflexivity|]. split; [exact Hsz|].
  exact (serial_mapAF_two_phases (VArr sparse) (VArr sparse) double VUndefined
           eq_refl eq_refl Hsz).
Defined.

(** On [[Promise.resolve(1)]] the pure callable
    [(el, i, arr) => arr[i] instanceof Promise] is handed the resolved view
    in either mode, and yields [[false]]. *)
Example resolved_view_in_either_mode (mode : bool) :
  ∃ r, mapAF (Wrapper (VArr [Some (VPromise 0 (Fulfilled (VNum 1)))]) mode)
             (Fn sees_promise) VUndefined = Return r
     ∧ settled_value (stage r) = Ok (VArr [Some (VBool false)]).
Proof. destruct mode; eexists; done. Qed.



(** C4.  Constructing a pipeline accepts any value without validating it.
    Chaining [mapAF] or [forEachAF] returns a new stage whatever the input
    and the callback are, it never throws; with a callback that is not a
    function nothing is resolved or invoked, and the new stage's deferred
    value is rejected: with a type error when the input settled to a value,
    with the input's own rejection reason otherwise. *)
Theorem chaining_never_throws :
  (∀ v : value, AsyncAF v = Return (Wrapper v false))
  ∧ (∀ (this : AsyncAfWrapper) (cb : callback) (thisArg : value),
       (∃ r, mapAF this cb thisArg = Return r)
       ∧ (∃ r, forEachAF this cb thisArg = Return r))
  ∧ (∀ (this : AsyncAfWrapper) (v thisArg : value),
       ∃ r r', mapAF this (NotFn v) thisArg = Return r
         ∧ forEachAF this (NotFn v) thisArg = Return r'
         ∧ happened r = [] ∧ happened r' = []
         ∧ match final_of (data this) with
           | Fulfilled _ =>
               ∃ m m', settled_value (stage r) = Fail (TypeError m)
                     ∧ settled_value (stage r') = Fail (TypeError m')
           | Rejected e =>
               settled_value (stage r) = Fail e ∧ settled_value (stage r') = Fail e
           end).
Proof.
  split; [done|]. split.
  - intros this cb thisArg. unfold mapAF, forEachAF, wrapper_then.
    destruct ((await 0 (data this)).2) as [arr|e]; [|eauto].
    destruct (permissiveIsArrayLike arr); cbn [negb]; [|eauto].
    destruct cb; eauto.
  - intros this v thisArg. unfold mapAF, forEachAF, wrapper_then.
    rewrite await_outcome. destruct (final_of (data this)) as [arr|e] eqn:E.
    + cbn [settled_of]. destruct (permissiveIsArrayLike arr); cbn [negb];
        eexists _, _; (split; [reflexivity|]); (split; [reflexivity|]);
        (split; [reflexivity|]); (split; [reflexivity|]);
        eexists _, _; split; reflexivity.
    + cbn [settled_of]. eexists _, _. done.
Qed.

(** C5.  On a settled input that is not an eligible collection, [mapAF]
    and [forEachAF] reject with a type error whose message is the name of
    the operation, [" cannot be called on "], the default string coercion
    of the input and [", only on an Array or array-like Object"], whatever
    the callback and the mode are; so [null], [undefined] and [{}] are
    embedded as [null], [undefined] and [[object Object]].  The inputs are
    the [printable] ones, whose coercion is the default one. *)
Theorem shape_rejection_message :
  (∀ (mode : bool) (input arr : value) (cb : callback) (thisArg : value),
     final_of input = Fulfilled arr →
     permissiveIsArrayLike arr = false →
     printable arr = true →
     (∃ r, mapAF (Wrapper input mode) cb thisArg = Return r
         ∧ happened r = []
         ∧ settled_value (stage r)
           = Fail (TypeError ("mapAF cannot be called on " ++ toString arr
                                ++ ", only on an Array or array-like Object")))
     ∧ (∃ r, forEachAF (Wrapper input mode) cb thisArg = Return r
           ∧ happened r = []
           ∧ settled_value (stage r)
             = Fail (TypeError ("forEachAF cannot be called on " ++ toString arr
                                  ++ ", only on an Array or array-like Object"))))
  ∧ (∀ (mode : bool) (cb : callback) (thisArg : value),
       (∃ r, mapAF (Wrapper VNull mode) cb thisArg = Return r
           ∧ settled_value (stage r)
             = Fail (TypeError
                 "mapAF cannot be called on null, only on an Array or array-like Object"))
       ∧ (∃ r, mapAF (Wrapper VUndefined mode) cb thisArg = Return r
             ∧ settled_value (stage r)
               = Fail (TypeError
                   "mapAF cannot be called on undefined, only on an Array or array-like Object"))
       ∧ (∃ r, mapAF (Wrapper (VRec []) mode) cb thisArg = Return r
             ∧ settled_value (stage r)
               = Fail (TypeError
                   "mapAF cannot be called on [object Object], only on an Array or array-like Object"))).
Proof.
  split.
  - intros mode input arr cb thisArg Hin Harr _.
    unfold mapAF, forEachAF, wrapper_then. cbn [data inSeries].
    rewrite await_outcome, Hin. cbn [settled_of]. rewrite Harr. cbn [negb].
    split; eexists; done.
  - intros mode cb thisArg. repeat split; eexists; done.
Qed.

Lemma shape_rejection_message_witness :
  final_of (VPromise 3 (Fulfilled (VNum (-42)))) = Fulfilled (VNum (-42))
  ∧ permissiveIsArrayLike (VNum (-42)) = false
  ∧ printable (VNum (-42)) = true
  ∧ (∃ r, mapAF (Wrapper (VPromise 3 (Fulfilled (VNum (-42)))) false) (Fn double) VNull
          = Return r
        ∧ happened r = []
        ∧ settled_value (stage r)
          = Fail (TypeError
              "mapAF cannot be called on -42, only on an Array or array-like Object"))
  ∧ (∃ r, forEachAF (Wrapper (VPromise 3 (Fulfilled (VNum (-42)))) false) (Fn double) VNull
          = Return r
        ∧ happened r = []
        ∧ settled_value (stage r)
          = Fail (TypeError
              "forEachAF cannot be called on -42, only on an Array or array-like Object")).
Proof.
  split; [reflexivity|]. split; [reflexivity|]. split; [reflexivity|].
  exact (proj1 shape_rejection_message false (VPromise 3 (Fulfilled (VNum (-42))))
           (VNum (-42)) (Fn double) VNull eq_refl eq_refl eq_refl).
Defined.

(** C6.  On an eligible collection, a callback that is not a function makes
    [mapAF] reject with a type error whose message is the default string
    coercion of the callback followed by [" is not a function"], and
    nothing has been resolved or invoked by then; [mapAF] without a
    callback on [[1, 2, 3]] rejects with ["undefined is not a function"].
    The callbacks are the [printable] values, whose coercion is the default
    one. *)
Theorem missing_callable_message :
  (∀ (mode : bool) (input arr v thisArg : value),
     final_of input = Fulfilled arr →
     permissiveIsArrayLike arr = true →
     printable v = true →
     ∃ r, mapAF (Wrapper input mode) (NotFn v) thisArg = Return r
       ∧ happened r = []
       ∧ settled_value (stage r)
         = Fail (TypeError (toString v ++ " is not a function")))
  ∧ (∀ mode : bool,
       ∃ r, mapAF (Wrapper (VArr [Some (VNum 1); Some (VNum 2); Some (VNum 3)]) mode)
                  (NotFn VUndefined) VUndefined = Return r
         ∧ happened r = []
         ∧ settled_value (stage r) = Fail (TypeError "undefined is not a function")).
Proof.
  split.
  - intros mode input arr v thisArg Hin Harr _.
    unfold mapAF, wrapper_then. cbn [data inSeries].
    rewrite await_outcome, Hin. cbn [settled_of]. rewrite Harr. cbn [negb].
    eexists. done.
  - intros mode. eexists. done.
Qed.

Lemma missing_callable_message_witness :
  final_of (VStr "ab") = Fulfilled (VStr "ab")
  ∧ permissiveIsArrayLike (VStr "ab") = true
  ∧ printable (VArr [Some (VNum 7); None; Some (VArr [Some VNull; Some (VStr "x")])])
    = true
  ∧ ∃ r, mapAF (Wrapper (VStr "ab") true)
               (NotFn (VArr [Some (VNum 7); None; Some (VArr [Some VNull; Some (VStr "x")])]))
               VUndefined = Return r
      ∧ happened r = []
      ∧ settled_value (stage r) = Fail (TypeError "7,,,x is not a function").
Proof.
  split; [reflexivity|]. split; [reflexivity|]. split; [reflexivity|].
  exact (proj1 missing_callable_message true (VStr "ab") (VStr "ab")
           (VArr [Some (VNum 7); None; Some (VArr [Some VNull; Some (VStr "x")])])
           VUndefined eq_refl eq_refl eq_refl).
Defined.

(** C7.  In either mode every invocation of the callable by [mapAF] is
    bound to the supplied invocation context and receives, with the index
    of a PRESENT slot, the value the element of that slot resolved to.  In
    particular [[1, 2, 3]] transformed by
    [(n, i, arr) => n + (arr[i - 1] || 0)] yields [[1, 3, 5]]. *)
Theorem callable_arguments :
  (∀ (mode : bool) (input arr : value) (f : callable) (thisArg : value),
     final_of input = Fulfilled arr →
     permissiveIsArrayLike arr = true →
     ∃ r, mapAF (Wrapper input mode) (Fn f) thisArg = Return r
       ∧ ∀ t i th el a, (t, Invoked i th el a) ∈ happened r →
           th = thisArg
           ∧ ∃ x, normalise arr !! i = Some (Some x) ∧ final_of x = Fulfilled el)
  ∧ (∀ mode : bool,
       ∃ r, mapAF (Wrapper (VArr [Some (VNum 1); Some (VNum 2); Some (VNum 3)]) mode)
                  (Fn add_previous) VUndefined = Return r
         ∧ settled_value (stage r)
           = Ok (VArr [Some (VNum 1); Some (VNum 3); Some (VNum 5)])).
Proof.
  split.
  - intros mode input arr f thisArg Hin Harr.
    rewrite (mapAF_run mode input arr f thisArg Hin Harr).
    eexists. split; [reflexivity|].
    cbn [happened chained_of as_array trace]. intros t i th el a Hev.
    destruct mode.
    + apply (serial_invoked thisArg _ arr (λ rs, map_step f thisArg rs)) in Hev
        as (-> & rs & Hres & _ & Hi); [|apply map_step_trace].
      split; [done|]. by eapply resolves_to_lookup.
    + apply parallel_invoked in Hev as (-> & rs & Hres & _ & Hi).
      split; [done|]. by eapply resolves_to_lookup.
  - intros mode. destruct mode; eexists; done.
Qed.

Lemma callable_arguments_witness :
  final_of (VArr sparse) = Fulfilled (VArr sparse)
  ∧ permissiveIsArrayLike (VArr sparse) = true
  ∧ ∃ r, mapAF (Wrapper (VArr sparse) false) (Fn double) VNull = Return r
      ∧ ∀ t i th el a, (t, Invoked i th el a) ∈ happened r →
          th = VNull
          ∧ ∃ x, normalise (VArr sparse) !! i = Some (Some x)
                 ∧ final_of x = Fulfilled el.
Proof.
  split; [reflexivity|]. split; [reflexivity|].
  apply (proj1 callable_arguments false (VArr sparse) (VArr sparse) double VNull);
    reflexivity.
Defined.






(** C10.  On an eligible collection and with a function as callback,
    [forEachAF] in either mode never resolves to anything but [undefined],
    whatever the callable returns, and it does resolve to [undefined] as
    soon as no element and no call fails. *)
Theorem forEachAF_resolves_to_undefined (mode : bool) (input arr : value)
    (f : callable) (thisArg : value) :
  final_of input = Fulfilled arr →
  permissiveIsArrayLike arr = true →
  ∃ r, forEachAF (Wrapper input mode) (Fn f) thisArg = Return r
    ∧ (∀ v, settled_value (stage r) = Ok v → v = VUndefined)
    ∧ ((∀ j x, normalise arr !! j = Some (Some x) → ∃ el, final_of x = Fulfilled el) →
       (∀ t th el i a, ∃ w, call_outcome (f t th el i a) = Ok w) →
       settled_value (stage r) = Ok VUndefined).
Proof.
  intros Hin Harr. rewrite (forEachAF_run mode input arr f thisArg Hin Harr).
  eexists. split; [reflexivity|]. rewrite settled_value_undefined. split.
  - intros v. destruct (result _); [by intros [= <-] | discriminate].
  - intros Hel Hf. destruct mode.
    + by destruct (serial_each_fulfils f thisArg (delay_of input) arr Hel Hf) as [v ->].
    + destruct (parallel_fulfils f thisArg (delay_of input) arr) as [out Hout];
        [done|eauto|].
      unfold as_array. cbn [result]. by rewrite Hout.
Qed.

Lemma forEachAF_resolves_to_undefined_witness :
  final_of (VArr sparse) = Fulfilled (VArr sparse)
  ∧ permissiveIsArrayLike (VArr sparse) = true
  ∧ (∀ j x, normalise (VArr sparse) !! j = Some (Some x) →
       ∃ el, final_of x = Fulfilled el)
  ∧ (∀ t th el i a, ∃ w, call_outcome (double t th el i a) = Ok w)
  ∧ ∃ r, forEachAF (Wrapper (VArr sparse) false) (Fn double) VUndefined = Return r
      ∧ (∀ v, settled_value (stage r) = Ok v → v = VUndefined)
      ∧ settled_value (stage r) = Ok VUndefined.
Proof.
  assert (∀ j x, normalise (VArr sparse) !! j = Some (Some x) →
            ∃ el, final_of x = Fulfilled el) as Hel.
  { intros i x Hi. unfold sparse in Hi. simpl in Hi.
    do 7 (destruct i as [|i]; [simpl in Hi; simplify_eq; eauto|]). done. }
  assert (∀ t th el i a, ∃ w, call_outcome (double t th el i a) = Ok w) as Hf.
  { intros t th el i a. unfold double. destruct el; simpl; eauto. }
  split; [reflexivity|]. split; [reflexivity|]. split; [exact Hel|].
  split; [exact Hf|].
  destruct (forEachAF_resolves_to_undefined false (VArr sparse) (VArr sparse)
              double VUndefined eq_refl eq_refl) as (r & Hr & Honly & Hyes).
  exists r. split; [exact Hr|]. split; [exact Honly|]. exact (Hyes Hel Hf).
Defined.


(** * Further properties *)

(** ** Method registration *)

Lemma split_go_nonempty (sep : string) (k : nat) (s : string) :
  split_go sep k s ≠ [].
Proof.
  revert k. induction s as [|c s IH]; intros k; cbn [split_go]; [done|].
  destruct k as [|k]; [|apply IH].
  destruct (String.prefix sep (String c s)); [done|].
  by destruct (split_go sep 0 s).
Qed.

Lemma concat_cons (sep piece : string) (pieces : list string) :
  pieces ≠ [] →
  String.concat sep (piece :: pieces)
  = (piece ++ sep ++ String.concat sep pieces)%string.
Proof. by destruct pieces. Qed.

Lemma prefix_inv (sep s : string) :
  String.prefix sep s = true → ∃ rest, s = (sep ++ rest)%string.
Proof.
  revert s. induction sep as [|a sep IH]; intros [|b s]; simpl; try done.
  - by exists EmptyString.
  - by exists (String b s).
  - destruct (Ascii.ascii_dec a b) as [->|]; [|done].
    intros H. destruct (IH s H) as [rest ->]. by exists rest.
Qed.

Lemma prefix_app (sep rest : string) : String.prefix sep (sep ++ rest) = true.
Proof.
  induction sep as [|a sep IH]; simpl; [by destruct rest|].
  by destruct (Ascii.ascii_dec a a).
Qed.

Lemma string_length_app (s1 s2 : string) :
  String.length (s1 ++ s2) = String.length s1 + String.length s2.
Proof. induction s1 as [|c s1 IH]; simpl; [done|]. by rewrite IH. Qed.

(** Passing over [k] characters and then splitting gives pieces that join
    to what is left of the string. *)
Lemma split_go_join (sep : string) (k : nat) (front rest : string) :
  sep ≠ EmptyString →
  String.length front = k →
  String.concat sep (split_go sep k (front ++ rest)) = String.concat sep (split_go sep 0 rest).
Proof.
  intros Hsep. revert k. induction front as [|c front IH]; intros k Hk; simpl in *.
  - by subst k.
  - destruct k as [|k]; [discriminate|]. apply IH. lia.
Qed.

Lemma split_join (sep s : string) :
  sep ≠ EmptyString → String.concat sep (String_split sep s) = s.
Proof.
  intros Hsep. unfold String_split.
  assert (∀ n s, String.length s < n → String.concat sep (split_go sep 0 s) = s)
    as H; [|apply (H (S (String.length s))); lia].
  clear s. induction n as [|n IH]; intros s Hn; [lia|].
  destruct s as [|c s]; [done|]. cbn [split_go]. simpl in Hn.
  destruct (String.prefix sep (String c s)) eqn:Hp.
  - rewrite concat_cons by apply split_go_nonempty.
    destruct sep as [|a sep]; [done|].
    destruct (prefix_inv _ _ Hp) as [rest Hrest]. simpl in Hrest.
    injection Hrest as -> ->. cbn [String.length].
    replace (S (String.length sep) - 1) with (String.length sep) by lia.
    rewrite (split_go_join (String a sep) (String.length sep) sep rest Hsep eq_refl).
    rewrite IH; [done|]. rewrite string_length_app in Hn. lia.
  - pose proof (split_go_nonempty sep 0 s) as Hne.
    assert (String.concat sep (split_go sep 0 s) = s) as Hs by (apply IH; lia).
    destruct (split_go sep 0 s) as [|piece pieces]; [done|].
    destruct pieces as [|p ps]; [simpl in *; by subst|].
    rewrite concat_cons in Hs |- * by done. by rewrite <- Hs.
Qed.

Lemma alias_of_nil : alias_of EmptyString = EmptyString.
Proof. reflexivity. Qed.

Lemma alias_of_cons (c : Ascii.ascii) (s : string) :
  alias_of (String c s)
  = if String.prefix "AF" (String c s) then EmptyString else String c (alias_of s).
Proof.
  unfold alias_of, String_split. cbn [split_go].
  destruct (String.prefix "AF" (String c s)); [done|].
  pose proof (split_go_nonempty "AF" 0 s).
  by destruct (split_go "AF" 0 s).
Qed.

Lemma occurs_in_nil (sep : string) : sep ≠ EmptyString → ¬ occurs_in sep EmptyString.
Proof.
  intros Hsep (before & after & H). destruct before; simpl in H; [|done].
  by destruct sep.
Qed.

Lemma occurs_in_cons (sep : string) (c : Ascii.ascii) (s : string) :
  occurs_in sep (String c s)
  ↔ String.prefix sep (String c s) = true ∨ occurs_in sep s.
Proof.
  split.
  - intros ([|b before] & after & H); simpl in H.
    + left. rewrite H. exact (prefix_app sep after).
    + right. injection H as -> ->. by exists before, after.
  - intros [H|(before & after & ->)].
    + destruct (prefix_inv _ _ H) as [rest Hrest]. by exists EmptyString, rest.
    + by exists (String c before), after.
Qed.

(** X1.  The alias of a name is the part of the name in front of its first
    ["AF"]: the name is the alias followed by nothing or by something that
    begins with ["AF"], and ["AF"] does not occur in the alias. *)
Theorem alias_of_first_piece (name : string) :
  (∃ rest, name = (alias_of name ++ rest)%string
           ∧ (rest = EmptyString ∨ String.prefix "AF" rest = true))
  ∧ ¬ occurs_in "AF" (alias_of name).
Proof.
  induction name as [|c s [(rest & Hs & Hrest) Hfree]].
  - split; [by exists EmptyString; split; [|left]|]. by apply occurs_in_nil.
  - rewrite alias_of_cons. destruct (String.prefix "AF" (String c s)) eqn:Hp.
    + split; [|by apply occurs_in_nil].
      exists (String c s). split; [done|by right].
    + split.
      * exists rest. split; [|done].
        change (String c s = String c (alias_of s ++ rest)%string). by f_equal.
      * rewrite occurs_in_cons. intros [Hp'|Hocc]; [|done].
        apply prefix_inv in Hp' as [r Hr].
        cbv [String.append] in Hr. injection Hr as -> Ha.
        rewrite Hs, Ha in Hp.
        pose proof (prefix_app "AF" (r ++ rest)) as Hp'.
        cbv [String.append] in Hp, Hp'. fold String.append in Hp, Hp'.
        congruence.
Qed.

(** X2.  A name in which ["AF"] does not occur is its own alias, and it is
    the alias of every name made of it, ["AF"] and anything after it. *)
Theorem alias_of_suffixed (x rest : string) :
  ¬ occurs_in "AF" x →
  alias_of x = x ∧ alias_of (x ++ "AF" ++ rest) = x.
Proof.
  intros Hx. split.
  - induction x as [|c s IH]; [done|].
    rewrite occurs_in_cons in Hx. rewrite alias_of_cons.
    destruct (String.prefix "AF" (String c s)); [tauto|].
    rewrite IH; tauto.
  - induction x as [|c x IH].
    + pose proof (prefix_app "AF" rest) as Hp.
      change (EmptyString ++ "AF" ++ rest)%string with ("AF" ++ rest)%string.
      cbv [String.append] in Hp |- *. fold String.append in Hp |- *.
      by rewrite alias_of_cons, Hp.
    + rewrite occurs_in_cons in Hx.
      change (String c x ++ "AF" ++ rest)%string
        with (String c (x ++ "AF" ++ rest)%string).
      rewrite alias_of_cons.
      destruct (String.prefix "AF" (String c (x ++ "AF" ++ rest))) eqn:Hp.
      * exfalso. apply prefix_inv in Hp as [r Hr].
        destruct x as [|d x].
        -- cbv [String.append] in Hr. by injection Hr.
        -- change (String d x ++ "AF" ++ rest)%string
             with (String d (x ++ "AF" ++ rest)%string) in Hr.
           cbv [String.append] in Hr. fold String.append in Hr.
           injection Hr as -> -> _.
           apply Hx. left. exact (prefix_app "AF" x).
      * rewrite IH; tauto.
Qed.

Lemma alias_of_suffixed_witness :
  ¬ occurs_in "AF" "forEach"
  ∧ alias_of "forEach" = "forEach"
  ∧ alias_of "forEachAF" = "forEach".
Proof.
  assert (¬ occurs_in "AF" "forEach") as Hfree.
  { rewrite !occurs_in_cons. intros H.
    repeat (destruct H as [H|H]; [by lazy in H|]).
    by apply occurs_in_nil in H. }
  split; [exact Hfree|].
  exact (alias_of_suffixed "forEach" EmptyString Hfree).
Defined.

Lemma prepForDefine_snoc {B : Type} (ms : list (method B)) (m : method B) :
  prepForDefine (ms ++ [m])
  = assign (alias_of (method_name m)) (Descriptor m)
      (assign (method_name m) (Descriptor m) (prepForDefine ms)).
Proof. unfold prepForDefine. by rewrite foldl_app. Qed.

Lemma assign_lookup {B : Type} (key' key : string) (d : descriptor B)
    (target : gmap string (descriptor B)) :
  assign key' d target !! key
  = if decide (key' = key ∧ key ≠ "__proto__") then Some d else target !! key.
Proof.
  unfold assign. destruct (decide (key' = "__proto__")) as [->|Hne].
  - rewrite decide_False; [done|]. intros [<- ?]. done.
  - destruct (decide (key' = key)) as [->|Hk].
    + rewrite lookup_insert_eq. by rewrite decide_True.
    + rewrite lookup_insert_ne by done. rewrite decide_False; [done|]. tauto.
Qed.

Lemma last_all_equal {A : Type} (l : list A) (x : A) :
  l ≠ [] → (∀ y, y ∈ l → y = x) → last l = Some x.
Proof.
  intros Hne Hall. destruct l as [|y l] using rev_ind; [done|].
  rewrite last_snoc. f_equal. apply Hall. apply elem_of_app. right. by left.
Qed.

Lemma prepForDefine_last {B : Type} (methods : list (method B)) (key : string) :
  prepForDefine methods !! key
  = if decide (key = "__proto__") then None
    else Descriptor <$> last (filter (entered_under key) methods).
Proof.
  induction methods as [|m ms IH] using rev_ind.
  - by destruct (decide (key = "__proto__")).
  - rewrite prepForDefine_snoc, !assign_lookup, IH, filter_app, filter_cons,
      filter_nil.
    destruct (decide (key = "__proto__")) as [->|Hkey].
    + rewrite !decide_False; [done|tauto|tauto].
    + destruct (decide (entered_under key m)) as [Hm|Hm].
      * rewrite last_snoc. simpl. destruct Hm as [Hm|Hm].
        -- destruct (decide (alias_of (method_name m) = key ∧ key ≠ "__proto__"));
             [done|]. by rewrite decide_True.
        -- by rewrite decide_True.
      * rewrite app_nil_r. unfold entered_under in Hm.
        rewrite !decide_False; [done|tauto|tauto].
Qed.

(** X3.  What [prepForDefine] enters under a key is the last method of the
    list whose name or alias is that key; nothing is entered under the key
    [__proto__], and a key that is neither a name nor an alias of a method
    of the list is not entered. *)
Theorem prepForDefine_lookup {B : Type} (methods : list (method B)) (key : string) :
  prepForDefine methods !! key
  = (if decide (key = "__proto__") then None
     else Descriptor <$> last (filter (entered_under key) methods))
  ∧ (is_Some (prepForDefine methods !! key)
     ↔ key ≠ "__proto__" ∧ ∃ m, m ∈ methods ∧ entered_under key m).
Proof.
  split; [apply prepForDefine_last|].
  rewrite prepForDefine_last.
  destruct (decide (key = "__proto__")) as [->|Hkey].
  { split; [by intros [? ?]|by intros [? _]]. }
  rewrite fmap_is_Some. split.
  - intros [m Hm]. apply last_Some_elem_of in Hm.
    apply list_elem_of_filter in Hm as [H1 H2]. eauto.
  - intros (_ & m & Hin & Hm).
    assert (m ∈ filter (entered_under key) methods) as Hf
      by (by apply list_elem_of_filter).
    destruct (filter (entered_under key) methods) as [|y l] using rev_ind.
    + by apply elem_of_nil in Hf.
    + rewrite last_snoc. eauto.
Qed.

(** X4.  When no two different methods of the list share a key, every
    method of the list is entered under its own name and under its alias,
    the key [__proto__] apart, under which nothing is entered. *)
Theorem prepForDefine_distinct {B : Type} (methods : list (method B)) (m : method B) :
  (∀ m1 m2 key, m1 ∈ methods → m2 ∈ methods →
     entered_under key m1 → entered_under key m2 → m1 = m2) →
  m ∈ methods →
  ∀ key, entered_under key m →
    prepForDefine methods !! key
    = if decide (key = "__proto__") then None else Some (Descriptor m).
Proof.
  intros Hdistinct Hin key Hkey. rewrite prepForDefine_last.
  destruct (decide (key = "__proto__")); [done|].
  rewrite (last_all_equal _ m); [done| |].
  - intros Hnil.
    assert (m ∈ filter (entered_under key) methods) as Hf
      by (by apply list_elem_of_filter).
    rewrite Hnil in Hf. by apply elem_of_nil in Hf.
  - intros y Hy. apply list_elem_of_filter in Hy as [Hy1 Hy2].
    by apply (Hdistinct y m key).
Qed.

Lemma prepForDefine_distinct_witness :
  (∀ m1 m2 key,
     m1 ∈ [Method "mapAF" mapAF; Method "forEachAF" forEachAF] →
     m2 ∈ [Method "mapAF" mapAF; Method "forEachAF" forEachAF] →
     entered_under key m1 → entered_under key m2 → m1 = m2)
  ∧ Method "forEachAF" forEachAF ∈ [Method "mapAF" mapAF; Method "forEachAF" forEachAF]
  ∧ entered_under "forEach" (Method "forEachAF" forEachAF)
  ∧ prepForDefine [Method "mapAF" mapAF; Method "forEachAF" forEachAF] !! "forEach"
    = Some (Descriptor (Method "forEachAF" forEachAF)).
Proof.
  assert (∀ m1 m2 key,
            m1 ∈ [Method "mapAF" mapAF; Method "forEachAF" forEachAF] →
            m2 ∈ [Method "mapAF" mapAF; Method "forEachAF" forEachAF] →
            entered_under key m1 → entered_under key m2 → m1 = m2) as Hdistinct.
  { intros m1 m2 key H1 H2 K1 K2.
    apply elem_of_cons in H1 as [->|H1]; [|apply list_elem_of_singleton in H1 as ->];
      (apply elem_of_cons in H2 as [->|H2]; [|apply list_elem_of_singleton in H2 as ->]);
      try reflexivity;
      destruct K1 as [K1|K1], K2 as [K2|K2]; lazy in K1, K2; congruence. }
  assert (Method "forEachAF" forEachAF
            ∈ [Method "mapAF" mapAF; Method "forEachAF" forEachAF]) as Hin
    by (right; left).
  assert (entered_under "forEach" (Method "forEachAF" forEachAF)) as Hkey
    by (right; reflexivity).
  split; [exact Hdistinct|]. split; [exact Hin|]. split; [exact Hkey|].
  exact (prepForDefine_distinct _ _ Hdistinct Hin "forEach" Hkey).
Defined.

(** ** [forEachAF] beside [mapAF] *)

Lemma each_step_eq (f : callable) (thisArg : value) (whole : view) (el : value)
    (i now : nat) (a : value) :
  each_step f thisArg whole el i now a
  = Task (settle_call now (f now thisArg el i (VArr whole))).1
         (call_outcome (f now thisArg el i (VArr whole)))
         (call_trace now thisArg el i (VArr whole) (f now thisArg el i (VArr whole))).
Proof. unfold each_step. by rewrite settle_call_outcome. Qed.

(** The serial chains of the two operations go the same way: same instants,
    same trace, and they fulfil or fail together, with the same reason. *)
Lemma chain_each_as_map (f : callable) (thisArg : value) (whole : view)
    (k : nat) (rest : view) (now : nat) (m : view) (a : value) :
  concrete m → k + length rest ≤ length m →
  settles (chain (each_step f thisArg whole) k rest now a)
  = settles (chain (map_step f thisArg whole) k rest now m)
  ∧ trace (chain (each_step f thisArg whole) k rest now a)
    = trace (chain (map_step f thisArg whole) k rest now m)
  ∧ match result (chain (each_step f thisArg whole) k rest now a),
          result (chain (map_step f thisArg whole) k rest now m) with
    | Ok _, Ok _ => True
    | Fail e1, Fail e2 => e1 = e2
    | _, _ => False
    end.
Proof.
  revert k now m a. induction rest as [|[el|] rest IH]; intros k now m a Hm Hk;
    cbn [chain].
  - done.
  - simpl in Hk. rewrite map_step_eq by (done || lia). cbv zeta.
    rewrite each_step_eq. unfold then_ at 1 2 3 4 5 6. cbn [result settles trace].
    destruct (call_outcome (f now thisArg el k (VArr whole))) as [w|e] eqn:Hc;
      cbn [result settles trace]; [|done].
    destruct (IH (S k) (settle_call now (f now thisArg el k (VArr whole))).1
                (<[k := Some w]> m) w) as (H1 & H2 & H3).
    + apply concrete_insert; [done|]. eapply call_outcome_concrete, Hc.
    + rewrite length_insert. lia.
    + rewrite H1, H2. done.
  - simpl in Hk. apply IH; [done|lia].
Qed.

Lemma serial_each_as_map (f : callable) (thisArg : value) (now : nat) (arr : value) :
  array_sized (normalise arr) →
  settles (serial_each f thisArg now arr) = settles (serial_map f thisArg now arr)
  ∧ trace (serial_each f thisArg now arr) = trace (serial_map f thisArg now arr)
  ∧ match result (serial_each f thisArg now arr),
          result (serial_map f thisArg now arr) with
    | Ok _, Ok _ => True
    | Fail e1, Fail e2 => e1 = e2
    | _, _ => False
    end.
Proof.
  intros Hsz. unfold serial_each, serial_map, then_, serial.
  destruct (result (resolveSerially now 0 (normalise arr))) as [rs|e] eqn:R;
    cbn [result settles trace]; [|done].
  apply resolveSerially_Ok in R.
  assert (array_sized rs) as Hrs.
  { unfold array_sized in *. by rewrite (resolves_to_length _ _ R). }
  rewrite (to_uint32_length rs Hrs).
  destruct (chain_each_as_map f thisArg rs 0 rs
              (settles (resolveSerially now 0 (normalise arr)))
              (Array (length rs)) VUndefined) as (H1 & H2 & H3).
  - apply concrete_Array.
  - rewrite Array_length. simpl. lia.
  - by rewrite H1, H2.
Qed.

(** X5.  On an eligible collection and with the same callable, [forEachAF]
    goes exactly as [mapAF] does, in either mode: the two operations have
    the same trace (same elements resolved, same invocations, at the same
    instants), their stages settle at the same instant, reject together
    with the same reason, and where [mapAF] fulfils with a collection
    [forEachAF] fulfils with [undefined]. *)
Theorem forEachAF_beside_mapAF (mode : bool) (input arr : value) (f : callable)
    (thisArg : value) :
  final_of input = Fulfilled arr →
  permissiveIsArrayLike arr = true →
  array_sized (normalise arr) →
  ∃ rm re,
    mapAF (Wrapper input mode) (Fn f) thisArg = Return rm
    ∧ forEachAF (Wrapper input mode) (Fn f) thisArg = Return re
    ∧ happened re = happened rm
    ∧ data (stage re) = discarded (data (stage rm))
    ∧ inSeries (stage re) = inSeries (stage rm).
Proof.
  intros Hin Harr Hsz.
  rewrite (mapAF_run mode input arr f thisArg Hin Harr).
  rewrite (forEachAF_run mode input arr f thisArg Hin Harr).
  eexists _, _. split; [reflexivity|]. split; [reflexivity|].
  unfold chained_of, as_array, then_. cbn [stage happened data inSeries].
  destruct mode.
  - destruct (serial_each_as_map f thisArg (delay_of input) arr Hsz)
      as (H1 & H2 & H3).
    destruct (result (serial_each f thisArg (delay_of input) arr)) as [v|e],
      (result (serial_map f thisArg (delay_of input) arr)) as [vs|e'];
      cbn [result settles trace outcome_of discarded]; try done.
    + by rewrite H1, H2, app_nil_r.
    + by rewrite H1, H2, H3.
  - cbn [result settles trace].
    destruct (result (parallel (delay_of input) arr (Fn f) thisArg)) as [vs|e];
      cbn [result settles trace outcome_of discarded]; [|done].
    by rewrite app_nil_r.
Qed.

Lemma forEachAF_beside_mapAF_witness :
  final_of (VArr sparse) = Fulfilled (VArr sparse)
  ∧ permissiveIsArrayLike (VArr sparse) = true
  ∧ array_sized (normalise (VArr sparse))
  ∧ ∃ rm re,
      mapAF (Wrapper (VArr sparse) true) (Fn double) VUndefined = Return rm
      ∧ forEachAF (Wrapper (VArr sparse) true) (Fn double) VUndefined = Return re
      ∧ happened re = happened rm
      ∧ data (stage re) = discarded (data (stage rm))
      ∧ inSeries (stage re) = inSeries (stage rm).
Proof.
  assert (array_sized (normalise (VArr sparse))) as Hsz
    by (unfold array_sized; simpl; lia).
  split; [reflexivity|]. split; [reflexivity|]. split; [exact Hsz|].
  exact (forEachAF_beside_mapAF true (VArr sparse) (VArr sparse) double VUndefined
           eq_refl eq_refl Hsz).
Defined.

(** ** Element-wise callables *)

Lemma resolves_to_refl (rs : view) : concrete rs → resolves_to rs rs.
Proof.
  induction 1 as [|[v|] rs Hv _ IH]; constructor; try done.
  apply final_of_concrete. eauto.
Qed.

Lemma map_view_length (F : value → value) (rs : view) :
  length (map_view F rs) = length rs.
Proof. unfold map_view. by rewrite length_fmap. Qed.

Lemma map_view_lookup (F : value → value) (rs : view) (j : nat) :
  map_view F rs !! j = (λ s : option value, F <$> s) <$> (rs !! j).
Proof. unfold map_view. by rewrite list_lookup_fmap. Qed.

Lemma map_view_compose (F G : value → value) (rs : view) :
  map_view G (map_view F rs) = map_view (λ el, G (F el)) rs.
Proof.
  unfold map_view. rewrite <- list_fmap_compose. apply list_fmap_ext.
  intros _ [el|] _; done.
Qed.

Lemma map_view_id (rs : view) : map_view (λ el, el) rs = rs.
Proof.
  unfold map_view. rewrite <- (list_fmap_id rs) at 2. apply list_fmap_ext.
  intros _ [el|] _; done.
Qed.

Lemma map_view_concrete (F : value → value) (rs : view) :
  (∀ el, is_promise el = false → is_promise (F el) = false) →
  concrete rs → concrete (map_view F rs).
Proof.
  intros HF Hrs. unfold concrete, map_view in *. apply Forall_fmap.
  eapply Forall_impl; [exact Hrs|].
  intros [el|] Hel v; simpl; [|done]. intros [= <-]. apply HF. by apply Hel.
Qed.

Lemma elementwise_pure (F : value → value) : pure (elementwise F).
Proof. done. Qed.

(** What a serial [mapAF] with an element-wise callable fulfils with: the
    elements resolved, [F] applied to each, the results resolved. *)
Lemma serial_elementwise (F : value → value) (thisArg : value) (now : nat)
    (arr : value) (out : view) :
  array_sized (normalise arr) →
  result (serial_map (elementwise F) thisArg now arr) = Ok out
  ↔ ∃ rs, resolves_to (normalise arr) rs ∧ resolves_to (map_view F rs) out.
Proof.
  intros Hsz.
  assert (∀ out', result (serial_map (elementwise F) thisArg now arr) = Ok out' →
            ∃ rs, resolves_to (normalise arr) rs ∧ resolves_to (map_view F rs) out')
    as Hforth.
  { intros out' R.
    apply serial_map_Ok in R as (rs & Hres & Hlen & Hholes & Hvals); [|done].
    exists rs. split; [done|].
    apply Forall2_same_length_lookup_2; [by rewrite map_view_length|].
    intros j s r Hs Hr. rewrite map_view_lookup in Hs.
    destruct (rs !! j) as [[el|]|] eqn:E; simpl in Hs; simplify_eq.
    - destruct (Hvals j el E) as (t & w & Hw & Hout).
      rewrite Hout in Hr. simplify_eq. unfold elementwise in Hw. simpl in Hw.
      destruct (final_of (F el)); simpl in Hw; congruence.
    - apply (hole_pattern_lookup _ _ j Hholes) in E. rewrite E in Hr.
      by simplify_eq. }
  split; [apply Hforth|].
  intros (rs & Hres & Hout).
  destruct (serial_map_fulfils (elementwise F) thisArg now arr Hsz) as [out' R].
  - intros j x Hj.
    destruct (Forall2_lookup_l _ _ _ _ _ Hres Hj) as ([el|] & _ & Hrel); [|done].
    eauto.
  - intros rs' j el t Hres' Hj.
    rewrite <- (resolves_to_functional _ _ _ Hres Hres') in Hj.
    assert (map_view F rs !! j = Some (Some (F el))) as Hm
      by (by rewrite map_view_lookup, Hj).
    destruct (Forall2_lookup_l _ _ _ _ _ Hout Hm) as ([w|] & _ & Hrel); [|done].
    exists w. unfold elementwise. simpl in *. by rewrite Hrel.
  - rewrite R. f_equal.
    destruct (Hforth out' R) as (rs' & Hres' & Hout').
    rewrite <- (resolves_to_functional _ _ _ Hres Hres') in Hout'.
    by apply (resolves_to_functional (map_view F rs)).
Qed.

(** The same in either mode. *)
Lemma resolver_elementwise (mode : bool) (F : value → value) (thisArg : value)
    (now : nat) (arr : value) (out : view) :
  array_sized (normalise arr) →
  result (if mode then serial_map (elementwise F) thisArg now arr
          else parallel now arr (Fn (elementwise F)) thisArg) = Ok out
  ↔ ∃ rs, resolves_to (normalise arr) rs ∧ resolves_to (map_view F rs) out.
Proof.
  intros Hsz. rewrite <- (serial_elementwise F thisArg now arr out Hsz).
  destruct mode; [done|]. split.
  - apply parallel_then_serial; [done|apply elementwise_pure].
  - apply serial_then_parallel; [done|apply elementwise_pure].
Qed.

(** X6.  With a callable that looks at its first argument only, [mapAF]
    in either mode yields a collection exactly when every PRESENT element
    resolves and every result of the callable resolves, and the collection
    is then: the elements resolved, the callable applied to each, the
    results resolved, holes left where they were. *)
Theorem mapAF_elementwise (mode : bool) (input arr : value) (F : value → value)
    (thisArg : value) :
  final_of input = Fulfilled arr →
  permissiveIsArrayLike arr = true →
  array_sized (normalise arr) →
  ∃ r, mapAF (Wrapper input mode) (Fn (elementwise F)) thisArg = Return r
    ∧ ∀ out, settled_value (stage r) = Ok out
        ↔ ∃ rs ws, out = VArr ws
            ∧ resolves_to (normalise arr) rs
            ∧ resolves_to (map_view F rs) ws.
Proof.
  intros Hin Harr Hsz.
  rewrite (mapAF_run mode input arr (elementwise F) thisArg Hin Harr).
  eexists. split; [reflexivity|]. intros out. rewrite settled_value_array.
  split.
  - destruct (result _) as [vs|e] eqn:R; [|done]. intros [= <-].
    apply resolver_elementwise in R as (rs & H1 & H2); [|done]. eauto.
  - intros (rs & ws & -> & H1 & H2).
    assert (result (if mode then serial_map (elementwise F) thisArg (delay_of input) arr
                    else parallel (delay_of input) arr (Fn (elementwise F)) thisArg)
            = Ok ws) as R by (apply resolver_elementwise; eauto).
    by rewrite R.
Qed.

Lemma mapAF_elementwise_witness :
  final_of (VArr sparse) = Fulfilled (VArr sparse)
  ∧ permissiveIsArrayLike (VArr sparse) = true
  ∧ array_sized (normalise (VArr sparse))
  ∧ ∃ r, mapAF (Wrapper (VArr sparse) false)
               (Fn (elementwise (λ el, VPromise 3 (Fulfilled el)))) VUndefined
         = Return r
      ∧ ∀ out, settled_value (stage r) = Ok out
          ↔ ∃ rs ws, out = VArr ws
              ∧ resolves_to (normalise (VArr sparse)) rs
              ∧ resolves_to (map_view (λ el, VPromise 3 (Fulfilled el)) rs) ws.
Proof.
  assert (array_sized (normalise (VArr sparse))) as Hsz
    by (unfold array_sized; simpl; lia).
  split; [reflexivity|]. split; [reflexivity|]. split; [exact Hsz|].
  exact (mapAF_elementwise false (VArr sparse) (VArr sparse)
           (λ el, VPromise 3 (Fulfilled el)) VUndefined eq_refl eq_refl Hsz).
Defined.

Lemma as_array_Ok (p : task view) (out : value) :
  match result p with Ok vs => Ok (VArr vs) | Fail e => Fail e end = Ok out
  ↔ ∃ ws, out = VArr ws ∧ result p = Ok ws.
Proof.
  destruct (result p) as [vs|e]; split.
  - intros [= <-]. eauto.
  - by intros (ws & -> & [= <-]).
  - done.
  - by intros (ws & _ & ?).
Qed.

(** X7.  [mapAF] with the callable [el => el] resolves a collection, in
    either mode: it yields exactly the view in which every PRESENT element
    is resolved and every hole is left; a collection of concrete values
    comes back as it is. *)
Theorem mapAF_identity_resolves (mode : bool) (input arr : value) (thisArg : value) :
  final_of input = Fulfilled arr →
  permissiveIsArrayLike arr = true →
  array_sized (normalise arr) →
  ∃ r, mapAF (Wrapper input mode) (Fn (elementwise (λ el, el))) thisArg = Return r
    ∧ (∀ out, settled_value (stage r) = Ok out
         ↔ ∃ rs, out = VArr rs ∧ resolves_to (normalise arr) rs)
    ∧ (concrete (normalise arr) →
       settled_value (stage r) = Ok (VArr (normalise arr))).
Proof.
  intros Hin Harr Hsz.
  rewrite (mapAF_run mode input arr (elementwise (λ el, el)) thisArg Hin Harr).
  eexists. split; [reflexivity|]. rewrite settled_value_array.
  assert (∀ out,
            match result (if mode
                          then serial_map (elementwise (λ el, el)) thisArg
                                 (delay_of input) arr
                          else parallel (delay_of input) arr
                                 (Fn (elementwise (λ el, el))) thisArg) with
            | Ok vs => Ok (VArr vs)
            | Fail e => Fail e
            end = Ok out
            ↔ ∃ rs, out = VArr rs ∧ resolves_to (normalise arr) rs) as H.
  { intros out. rewrite as_array_Ok. split.
    - intros (ws & -> & R).
      apply resolver_elementwise in R as (rs & H1 & H2); [|done].
      rewrite map_view_id in H2.
      rewrite (resolves_to_concrete_eq rs ws (resolves_to_concrete _ _ H1) H2).
      eauto.
    - intros (rs & -> & H1). exists rs. split; [done|].
      apply resolver_elementwise; [done|]. exists rs. split; [done|].
      rewrite map_view_id. apply resolves_to_refl. by eapply resolves_to_concrete. }
  split; [exact H|].
  intros Hc. apply H. exists (normalise arr). split; [done|].
  by apply resolves_to_refl.
Qed.

Lemma mapAF_identity_resolves_witness :
  final_of (VArr sparse) = Fulfilled (VArr sparse)
  ∧ permissiveIsArrayLike (VArr sparse) = true
  ∧ array_sized (normalise (VArr sparse))
  ∧ concrete (normalise (VArr sparse))
  ∧ ∃ r, mapAF (Wrapper (VArr sparse) true) (Fn (elementwise (λ el, el))) VUndefined
         = Return r
      ∧ (∀ out, settled_value (stage r) = Ok out
           ↔ ∃ rs, out = VArr rs ∧ resolves_to (normalise (VArr sparse)) rs)
      ∧ settled_value (stage r) = Ok (VArr (normalise (VArr sparse))).
Proof.
  assert (array_sized (normalise (VArr sparse))) as Hsz
    by (unfold array_sized; simpl; lia).
  assert (concrete (normalise (VArr sparse))) as Hc.
  { simpl. unfold sparse. repeat constructor; intros v [= <-]; reflexivity. }
  split; [reflexivity|]. split; [reflexivity|]. split; [exact Hsz|].
  split; [exact Hc|].
  destruct (mapAF_identity_resolves true (VArr sparse) (VArr sparse) VUndefined
              eq_refl eq_refl Hsz) as (r & Hr & Hiff & Hback).
  exists r. split; [exact Hr|]. split; [exact Hiff|]. exact (Hback Hc).
Defined.

(** A stage whose deferred value is rejected is handed on by [mapAF]. *)
Lemma mapAF_rejected_input (mode : bool) (input e : value) (cb : callback)
    (thisArg : value) :
  final_of input = Rejected e →
  mapAF (Wrapper input mode) cb thisArg
  = Return (Chained (Wrapper (VPromise (delay_of input) (Rejected e)) mode) []).
Proof.
  intros Hin. unfold mapAF, wrapper_then. cbn [data inSeries].
  by rewrite await_outcome, Hin.
Qed.

(** X8.  Chaining composes: when [F] takes concrete values to concrete
    values, [mapAF] with [el => G(el)] chained after [mapAF] with
    [el => F(el)] yields a collection exactly when [mapAF] with
    [el => G(F(el))] does, and then the same one, in either mode. *)
Theorem mapAF_chained (mode : bool) (input arr : value) (F G : value → value)
    (thisArg thisArg' : value) :
  final_of input = Fulfilled arr →
  permissiveIsArrayLike arr = true →
  array_sized (normalise arr) →
  (∀ el, is_promise el = false → is_promise (F el) = false) →
  ∃ r1 r2 r12,
    mapAF (Wrapper input mode) (Fn (elementwise F)) thisArg = Return r1
    ∧ mapAF (stage r1) (Fn (elementwise G)) thisArg' = Return r2
    ∧ mapAF (Wrapper input mode) (Fn (elementwise (λ el, G (F el)))) thisArg'
      = Return r12
    ∧ ∀ out, settled_value (stage r2) = Ok out ↔ settled_value (stage r12) = Ok out.
Proof.
  intros Hin Harr Hsz HF.
  rewrite (mapAF_run mode input arr (elementwise F) thisArg Hin Harr).
  rewrite (mapAF_run mode input arr (elementwise (λ el, G (F el))) thisArg' Hin Harr).
  set (T1 := if mode then serial_map (elementwise F) thisArg (delay_of input) arr
             else parallel (delay_of input) arr (Fn (elementwise F)) thisArg).
  exists (chained_of mode (as_array T1)).
  destruct (result T1) as [ws1|e] eqn:R1.
  - pose proof R1 as R1'.
    apply resolver_elementwise in R1' as (rs & Hres & Hws1); [|done].
    pose proof (map_view_concrete F rs HF (resolves_to_concrete _ _ Hres)) as Hconc.
    apply (resolves_to_concrete_eq _ _ Hconc) in Hws1. subst ws1.
    assert (array_sized (normalise (VArr (map_view F rs)))) as Hsz'.
    { unfold array_sized in *. cbn [normalise].
      by rewrite map_view_length, (resolves_to_length _ _ Hres). }
    eexists _, _. split; [reflexivity|].
    cbn [stage chained_of as_array result settles]. rewrite R1. cbn [outcome_of].
    rewrite (mapAF_run mode (VPromise (settles T1) (Fulfilled (VArr (map_view F rs))))
               (VArr (map_view F rs)) (elementwise G) thisArg' eq_refl eq_refl).
    split; [reflexivity|]. split; [reflexivity|].
    intros out. rewrite !settled_value_array, !as_array_Ok.
    split; intros (ws & -> & R); exists ws; (split; [done|]);
      apply resolver_elementwise in R as (rs' & H1 & H2); try done;
      apply resolver_elementwise; try done.
    + cbn [normalise] in H1.
      apply (resolves_to_concrete_eq _ _ Hconc) in H1. subst rs'.
      rewrite map_view_compose in H2. eauto.
    + rewrite <- (resolves_to_functional _ _ _ Hres H1) in H2.
      exists (map_view F rs). cbn [normalise].
      split; [by apply resolves_to_refl|]. by rewrite map_view_compose.
  - eexists _, _. split; [reflexivity|].
    cbn [stage chained_of as_array result settles]. rewrite R1. cbn [outcome_of].
    rewrite (mapAF_rejected_input mode (VPromise (settles T1) (Rejected e)) e
               (Fn (elementwise G)) thisArg' eq_refl).
    split; [reflexivity|]. split; [reflexivity|].
    intros out. rewrite settled_value_array, as_array_Ok. split; [done|].
    intros (ws & -> & R).
    apply resolver_elementwise in R as (rs & H1 & H2); [|done].
    assert (result T1 = Ok (map_view F rs)) as R'.
    { apply resolver_elementwise; [done|]. exists rs. split; [done|].
      apply resolves_to_refl. apply map_view_concrete; [done|].
      by eapply resolves_to_concrete. }
    congruence.
Qed.

Lemma mapAF_chained_witness :
  let nums := VArr [Some (VNum 1); Some (VNum 2); Some (VNum 3); Some (VNum 4)] in
  let twice := λ el, match el with VNum n => VNum (n * 2) | _ => VNaN end in
  final_of nums = Fulfilled nums
  ∧ permissiveIsArrayLike nums = true
  ∧ array_sized (normalise nums)
  ∧ (∀ el, is_promise el = false → is_promise ((λ el, el) el) = false)
  ∧ ∃ r1 r2 r12,
      mapAF (Wrapper nums false) (Fn (elementwise (λ el, el))) VUndefined = Return r1
      ∧ mapAF (stage r1) (Fn (elementwise twice)) VUndefined = Return r2
      ∧ mapAF (Wrapper nums false) (Fn (elementwise (λ el, twice el))) VUndefined
        = Return r12
      ∧ ∀ out, settled_value (stage r2) = Ok out ↔ settled_value (stage r12) = Ok out.
Proof.
  intros nums twice.
  assert (array_sized (normalise nums)) as Hsz by (unfold array_sized; simpl; lia).
  assert (∀ el, is_promise el = false → is_promise ((λ el, el) el) = false) as HF
    by (intros el H; exact H).
  split; [reflexivity|]. split; [reflexivity|]. split; [exact Hsz|].
  split; [exact HF|].
  exact (mapAF_chained false nums nums (λ el, el) twice VUndefined VUndefined
           eq_refl eq_refl Hsz HF).
Defined.

(** ** Failures in SERIAL mode *)

Lemma resolveSerially_resolves (now k : nat) (slots rs : view) :
  resolves_to slots rs →
  result (resolveSerially now k slots) = Ok rs
  ∧ (trace (resolveSerially now k slots)).*2
    = ElementSettled <$> (present_from k slots).*1.
Proof.
  intros H. revert now k.
  induction H as [|[x|] [el|] slots rs H _ IH]; intros now k; try done.
  - cbn [resolveSerially]. rewrite await_outcome, H. cbn [settled_of].
    destruct (IH (await now x).1 (S k)) as [-> Ht].
    split; [done|]. cbn [trace present_from]. rewrite !fmap_cons, Ht. done.
  - cbn [resolveSerially]. destruct (IH now (S k)) as [-> Ht]. done.
Qed.

Lemma resolveSerially_first_rejection (now k : nat) (before after : view)
    (x e : value) :
  (∀ y, Some y ∈ before → ∃ el, final_of y = Fulfilled el) →
  final_of x = Rejected e →
  result (resolveSerially now k (before ++ Some x :: after)) = Fail e
  ∧ (trace (resolveSerially now k (before ++ Some x :: after))).*2
    = ElementSettled <$> ((present_from k before).*1 ++ [k + length before]).
Proof.
  intros Hbefore Hx. revert now k.
  induction before as [|[y|] before IH]; intros now k.
  - cbn [app resolveSerially]. rewrite await_outcome, Hx. cbn [settled_of].
    split; [done|]. cbn. by replace (k + 0) with k by lia.
  - destruct (Hbefore y) as [el Hy]; [left|].
    cbn [app resolveSerially]. rewrite await_outcome, Hy. cbn [settled_of].
    destruct (IH (λ z Hz, Hbefore z (list_elem_of_further _ _ _ Hz))
                (await now y).1 (S k)) as [-> Ht].
    split; [done|]. cbn [trace present_from length]. rewrite !fmap_cons, Ht.
    cbn [fst snd]. by replace (S k + length before) with (k + S (length before)) by lia.
  - cbn [app resolveSerially].
    destruct (IH (λ z Hz, Hbefore z (list_elem_of_further _ _ _ Hz)) now (S k))
      as [-> Ht].
    split; [done|]. cbn [trace present_from length]. rewrite Ht.
    by replace (S k + length before) with (k + S (length before)) by lia.
Qed.

(** The chain of [forEachAF] up to the first call that fails. *)
Lemma chain_each_first_failure (f : callable) (thisArg : value) (whole : view)
    (k : nat) (slots : view) (now : nat) (a : value)
    (before after : list (nat * value)) (i : nat) (el e : value) :
  present_from k slots = before ++ (i, el) :: after →
  (∀ j x t, (j, x) ∈ before →
     ∃ w, call_outcome (f t thisArg x j (VArr whole)) = Ok w) →
  (∀ t, call_outcome (f t thisArg el i (VArr whole)) = Fail e) →
  result (chain (each_step f thisArg whole) k slots now a) = Fail e
  ∧ (trace (chain (each_step f thisArg whole) k slots now a)).*2
    = (before ++ [(i, el)]) ≫= call_events thisArg (VArr whole).
Proof.
  revert k now a before.
  induction slots as [|[x|] rest IH]; intros k now a before Hpresent Hbefore Hfail;
    cbn [chain present_from] in *.
  - by destruct before.
  - rewrite each_step_eq. unfold then_ at 1 2. cbn [result settles trace].
    destruct before as [|[j0 x0] before]; cbn [app] in Hpresent.
    + injection Hpresent as -> -> _. rewrite Hfail. done.
    + injection Hpresent as <- <- Hrest.
      destruct (Hbefore k x now) as [w ->]; [left|].
      cbn [result trace].
      destruct (IH (S k) (settle_call now (f now thisArg x k (VArr whole))).1 w
                  before Hrest) as [-> Ht]; [|done|].
      * intros j y t Hy. apply Hbefore. by right.
      * split; [done|]. rewrite fmap_app, Ht. done.
  - by apply IH.
Qed.

(** X10.  In SERIAL mode, when every element resolves and the call for slot
    [i] is the first one to fail (it throws, or what it returns rejects),
    [mapAF] and [forEachAF] reject with the reason of that failure, and the
    callable has been invoked for the PRESENT slots up to [i], ascending,
    and for no later slot. *)
Theorem serial_first_failing_call (input arr : value) (f : callable)
    (thisArg : value) (rs : view) (before after : list (nat * value))
    (i : nat) (el e : value) :
  final_of input = Fulfilled arr →
  permissiveIsArrayLike arr = true →
  array_sized (normalise arr) →
  resolves_to (normalise arr) rs →
  present rs = before ++ (i, el) :: after →
  (∀ j x t, (j, x) ∈ before → ∃ w, call_outcome (f t thisArg x j (VArr rs)) = Ok w) →
  (∀ t, call_outcome (f t thisArg el i (VArr rs)) = Fail e) →
  ∃ rm re,
    mapAF (Wrapper input true) (Fn f) thisArg = Return rm
    ∧ forEachAF (Wrapper input true) (Fn f) thisArg = Return re
    ∧ settled_value (stage rm) = Fail e
    ∧ settled_value (stage re) = Fail e
    ∧ invocations (happened rm) = before.*1 ++ [i]
    ∧ invocations (happened re) = before.*1 ++ [i].
Proof.
  intros Hin Harr Hsz Hres Hpresent Hbefore Hfail.
  rewrite (mapAF_run true input arr f thisArg Hin Harr).
  rewrite (forEachAF_run true input arr f thisArg Hin Harr).
  eexists _, _. split; [reflexivity|]. split; [reflexivity|].
  rewrite settled_value_array, settled_value_undefined.
  destruct (serial_each_as_map f thisArg (delay_of input) arr Hsz)
    as (_ & Htrace & Hboth).
  assert (result (serial_each f thisArg (delay_of input) arr) = Fail e
          ∧ invocations (trace (serial_each f thisArg (delay_of input) arr))
            = before.*1 ++ [i]) as [Heach Hinv].
  { unfold serial_each, then_, serial.
    destruct (resolveSerially_resolves (delay_of input) 0 _ _ Hres) as [-> Ht].
    cbn [result trace].
    destruct (chain_each_first_failure f thisArg rs 0 rs
                (settles (resolveSerially (delay_of input) 0 (normalise arr)))
                VUndefined before after i el e Hpresent Hbefore Hfail) as [-> Hc].
    split; [done|].
    rewrite (invocations_two_phases _ (present_from 0 (normalise arr)).*1
               (before ++ [(i, el)]) thisArg (VArr rs)).
    - by rewrite fmap_app.
    - by rewrite fmap_app, Ht, Hc. }
  rewrite Heach in Hboth |- *.
  destruct (result (serial_map f thisArg (delay_of input) arr)) as [vs|e'];
    [done|]. subst e'.
  cbn [happened chained_of as_array trace]. unfold then_ at 1. rewrite Heach.
  cbn [trace]. rewrite <- Htrace. done.
Qed.

Lemma serial_first_failing_call_witness :
  let nums := VArr [Some (VNum 1); Some (VNum 2); Some (VNum 3)] in
  let rs := [Some (VNum 1); Some (VNum 2); Some (VNum 3)] in
  let f : callable := λ _ _ el _ _,
    match el with VNum 2 => Throw (VStr "two") | _ => Return el end in
  final_of nums = Fulfilled nums
  ∧ permissiveIsArrayLike nums = true
  ∧ array_sized (normalise nums)
  ∧ resolves_to (normalise nums) rs
  ∧ present rs = [(0, VNum 1)] ++ (1, VNum 2) :: [(2, VNum 3)]
  ∧ ∃ rm re,
      mapAF (Wrapper nums true) (Fn f) VUndefined = Return rm
      ∧ forEachAF (Wrapper nums true) (Fn f) VUndefined = Return re
      ∧ settled_value (stage rm) = Fail (VStr "two")
      ∧ settled_value (stage re) = Fail (VStr "two")
      ∧ invocations (happened rm) = [(0, VNum 1)].*1 ++ [1]
      ∧ invocations (happened re) = [(0, VNum 1)].*1 ++ [1].
Proof.
  intros nums rs f.
  assert (array_sized (normalise nums)) as Hsz by (unfold array_sized; simpl; lia).
  assert (resolves_to (normalise nums) rs) as Hres by (repeat constructor).
  split; [reflexivity|]. split; [reflexivity|]. split; [exact Hsz|].
  split; [exact Hres|]. split; [reflexivity|].
  apply (serial_first_failing_call nums nums f VUndefined rs
           [(0, VNum 1)] [(2, VNum 3)] 1 (VNum 2) (VStr "two")
           eq_refl eq_refl Hsz Hres eq_refl).
  - intros j x t Hx. apply list_elem_of_singleton in Hx as [= -> ->].
    by exists (VNum 1).
  - reflexivity.
Defined.

(** X11.  In SERIAL mode, when the element of a PRESENT slot rejects and
    every element before it resolves, [mapAF] and [forEachAF] reject with
    the reason of that element; the elements up to that slot have been
    awaited, ascending, no element after it has, and the callable has not
    been invoked at all. *)
Theorem serial_rejected_element (input arr : value) (f : callable) (thisArg : value)
    (before after : view) (x e : value) :
  final_of input = Fulfilled arr →
  permissiveIsArrayLike arr = true →
  normalise arr = before ++ Some x :: after →
  (∀ y, Some y ∈ before → ∃ el, final_of y = Fulfilled el) →
  final_of x = Rejected e →
  ∃ rm re,
    mapAF (Wrapper input true) (Fn f) thisArg = Return rm
    ∧ forEachAF (Wrapper input true) (Fn f) thisArg = Return re
    ∧ settled_value (stage rm) = Fail e
    ∧ settled_value (stage re) = Fail e
    ∧ happened re = happened rm
    ∧ (happened rm).*2 = ElementSettled <$> ((present before).*1 ++ [length before])
    ∧ invocations (happened rm) = [].
Proof.
  intros Hin Harr Hview Hbefore Hx.
  rewrite (mapAF_run true input arr f thisArg Hin Harr).
  rewrite (forEachAF_run true input arr f thisArg Hin Harr).
  eexists _, _. split; [reflexivity|]. split; [reflexivity|].
  rewrite settled_value_array, settled_value_undefined.
  cbn [happened chained_of as_array trace].
  destruct (resolveSerially_first_rejection (delay_of input) 0 before after x e
              Hbefore Hx) as [Hr Ht].
  unfold serial_map, serial_each, then_, serial. rewrite Hview, Hr.
  cbn [result trace]. rewrite Ht.
  repeat split; try done.
  unfold invocations. rewrite Ht. apply invoked_elements.
Qed.

Lemma serial_rejected_element_witness :
  let slots := [Some (VPromise 2 (Fulfilled (VNum 1))); None;
                Some (VPromise 1 (Rejected (VStr "no"))); Some (VNum 3)] in
  let before := [Some (VPromise 2 (Fulfilled (VNum 1))); None] in
  final_of (VArr slots) = Fulfilled (VArr slots)
  ∧ permissiveIsArrayLike (VArr slots) = true
  ∧ normalise (VArr slots)
    = before ++ Some (VPromise 1 (Rejected (VStr "no"))) :: [Some (VNum 3)]
  ∧ (∀ y, Some y ∈ before → ∃ el, final_of y = Fulfilled el)
  ∧ final_of (VPromise 1 (Rejected (VStr "no"))) = Rejected (VStr "no")
  ∧ ∃ rm re,
      mapAF (Wrapper (VArr slots) true) (Fn double) VUndefined = Return rm
      ∧ forEachAF (Wrapper (VArr slots) true) (Fn double) VUndefined = Return re
      ∧ settled_value (stage rm) = Fail (VStr "no")
      ∧ settled_value (stage re) = Fail (VStr "no")
      ∧ happened re = happened rm
      ∧ (happened rm).*2 = ElementSettled <$> ((present before).*1 ++ [length before])
      ∧ invocations (happened rm) = [].
Proof.
  intros slots before.
  assert (∀ y, Some y ∈ before → ∃ el, final_of y = Fulfilled el) as Hbefore.
  { intros y Hy. apply elem_of_cons in Hy as [[= ->]|Hy]; [by exists (VNum 1)|].
    apply list_elem_of_singleton in Hy. discriminate. }
  split; [reflexivity|]. split; [reflexivity|]. split; [reflexivity|].
  split; [exact Hbefore|]. split; [reflexivity|].
  exact (serial_rejected_element (VArr slots) (VArr slots) double VUndefined
           before [Some (VNum 3)] (VPromise 1 (Rejected (VStr "no"))) (VStr "no")
           eq_refl eq_refl eq_refl Hbefore eq_refl).
Defined.
